(** * pre-commit-go: configuration model, prerequisite resolver and check runner

    A shallow embedding of the Go sources
      - [checks/config.go]            (package [checks]: modes, [Config],
                                       [EnabledChecks], YAML decoding, [New]),
      - [checks/definitions]          ([CheckPrerequisite.IsPresent]),
      - the command's [main.go]       ([installPrereq], [callRun], [run]),
    followed by the properties established about them.

    Conventions.
      - Go's [int] and [time.Duration] are modelled as [Z]; the one place where
        the source multiplies ([time.Duration(max)*time.Second]) wraps around
        at 64 bits, and the wrap-around is written out.
      - Go's [error] is an optional message: [None] is [nil].
      - A Go [map] is a [gmap]; reading a missing key yields the zero value.
        The order in which [range] visits a map is left open by the language,
        so every loop over a map takes the order from an oracle
        ([range_order]) that is only known to enumerate the map's entries.
      - Goroutines, buffered channels and [sync.WaitGroup] are modelled by an
        interleaving step relation (module [gochan]). *)

From Stdlib Require Import ZArith Lia.
From stdpp Require Import base option list gmap strings sorting.

Local Open Scope Z_scope.

(** ** Go values shared by the packages *)

(** [error]: [None] is [nil], [Some msg] an error whose [Error()] is [msg]. *)
Definition error : Type := option string.

(** The double quote character, as it appears in the formats
    ["invalid mode \"%s\""] and ["unknown check \"%s\""]. *)
Definition dquote : string := String (Ascii.ascii_of_nat 34) EmptyString.

(** [fmt.Sprintf("\"%s\"", s)]. *)
Definition quoted (s : string) : string := dquote +:+ s +:+ dquote.

(** Outcome of a fallible decoding step (a callback that either fills its
    target or returns an error). *)
Inductive decoded (A : Type) : Type :=
  | Decoded (a : A)
  | DecodeError (msg : string).
Arguments Decoded {A} a.
Arguments DecodeError {A} msg.

(** ** Package [checks] (checks/config.go) *)
Module checks.

(** [type Mode string] *)
Definition Mode : Type := string.

Definition PreCommit : Mode := "pre-commit".
Definition PrePush : Mode := "pre-push".
Definition ContinuousIntegration : Mode := "continuous-integration".
Definition Lint : Mode := "lint".

(** [var AllModes = []Mode{PreCommit, PrePush, ContinuousIntegration, Lint}] *)
Definition AllModes : list Mode := [PreCommit; PrePush; ContinuousIntegration; Lint].

(** The loop [for _, known := range AllModes { if val == known {...return nil} }]
    of [Mode.UnmarshalYAML]: [Some val] when the loop returns from inside,
    [None] when it falls through. *)
Fixpoint Mode_find (val : Mode) (known : list Mode) : option Mode :=
  match known with
  | [] => None
  | k :: rest => if String.eqb val k then Some val else Mode_find val rest
  end.

(** [func (m *Mode) UnmarshalYAML(unmarshal func(interface{}) error) error].
    [unmarshal] is the result of the callback on [&s]; [m] is the value of
    [*m] on entry.  Returns the value of [*m] on exit and the error. *)
Definition Mode_UnmarshalYAML (m : Mode) (unmarshal : decoded string) : Mode * error :=
  match unmarshal with
  | DecodeError e => (m, Some e)
  | Decoded s =>
      let val : Mode := s in
      match Mode_find val AllModes with
      | Some v => (v, None)
      | None => (m, Some ("invalid mode " +:+ quoted val))
      end
  end.

(** [definitions.CoverageSettings]; the two ratios are percentages, written
    as integer literals in [New]. *)
Record CoverageSettings : Type := mkCoverageSettings {
  MinCoverage : Z;
  MaxCoverage : Z
}.

(** The check instances built by [New]: one constructor per struct literal
    type, with the fields the literals set. *)
Inductive Check : Type :=
  | build (ExtraArgs : list string)
  | gofmt
  | test (ExtraArgs : list string)
  | goimports
  | Coverage (UseCoveralls : bool) (Global PerDirDefault : CoverageSettings)
             (PerDir : gmap string CoverageSettings)
  | errcheck (Ignores : string)
  | golint (Blacklist : list string)
  | govet (Blacklist : list string).

#[global] Instance CoverageSettings_eq_dec : EqDecision CoverageSettings.
Proof. solve_decision. Defined.

#[global] Instance Check_eq_dec : EqDecision Check.
Proof. solve_decision. Defined.

Section config.
(** The model of [Config] is generic in the type of check instances (the Go
    interface [Check]); [New] instantiates it with the structs above. *)
Context {check : Type}.

(** [type Checks map[string][]Check] *)
Definition Checks : Type := gmap string (list check).

(** [type Settings struct] *)
Record Settings : Type := mkSettings {
  settings_Checks : gmap string (list check);
  MaxDuration : Z
}.

(** The zero [Settings], read from [c.Modes] at a key that is absent. *)
Definition Settings_zero : Settings :=
  {| settings_Checks := ∅; MaxDuration := 0 |}.

(** [type Config struct] *)
Record Config : Type := mkConfig {
  MinVersion : string;
  Modes : gmap Mode Settings;
  IgnorePatterns : list string
}.

(** [c.Modes[mode]] *)
Definition Modes_at (c : Config) (mode : Mode) : Settings :=
  default Settings_zero (Modes c !! mode).

(** The order in which the [i]-th execution of a [range] loop visits the
    entries of a map. *)
Context (range_order : nat → gmap string (list check) → list (string * list check)).

(** [for _, checks := range c.Modes[mode].Checks { out = append(out, checks...) }] *)
Definition append_all (out : list check) (entries : list (string * list check)) : list check :=
  foldl (λ out kv, out ++ kv.2) out entries.

(** The outer loop of [EnabledChecks], with its two accumulators; [i]
    counts the iterations already made. *)
Fixpoint EnabledChecks_loop (c : Config) (i : nat) (modes : list Mode)
    (out : list check) (max : Z) : list check * Z :=
  match modes with
  | [] => (out, max)
  | mode :: rest =>
      let out := append_all out (range_order i (settings_Checks (Modes_at c mode))) in
      let max := if MaxDuration (Modes_at c mode) >? max
                 then MaxDuration (Modes_at c mode) else max in
      EnabledChecks_loop c (S i) rest out max
  end.

(** [func (c *Config) EnabledChecks(modes []Mode) ([]Check, int)] *)
Definition EnabledChecks (c : Config) (modes : list Mode) : list check * Z :=
  EnabledChecks_loop c 0 modes [] 0.
End config.

Arguments Settings : clear implicits.
Arguments Config : clear implicits.
Arguments Checks : clear implicits.

Section unmarshal.
(** [Checks.UnmarshalYAML].  [raw] is a per-check configuration block
    ([map[string]interface{}]), [bytes] its re-encoding.  The YAML library
    and the registry [KnownChecks] are defined elsewhere and are taken as
    they are given. *)
Context {check raw bytes : Type}.
Context (KnownChecks : gmap string (unit → check)).
Context (yaml_Marshal : raw → decoded bytes).
(** [yaml.Unmarshal(rawCheckData, check)] fills the instance behind the
    pointer [check]; the filled instance is returned. *)
Context (yaml_Unmarshal : bytes → check → decoded check).
Context (range_order : nat → gmap string (list raw) → list (string * list raw)).

(** The receiver [*c] together with the log of the factory calls made so
    far (the type name whose factory was called, most recent last). *)
Record decoder : Type := mkDecoder {
  dec_checks : gmap string (list check);
  dec_made : list string
}.

(** [for _, checkData := range checks { ... }] *)
Fixpoint decode_blocks (checkTypeName : string) (checkFactory : unit → check)
    (blocks : list raw) (st : decoder) : decoder * error :=
  match blocks with
  | [] => (st, None)
  | checkData :: rest =>
      match yaml_Marshal checkData with
      | DecodeError e => (st, Some e)
      | Decoded rawCheckData =>
          let chk := checkFactory () in
          let st := {| dec_checks := dec_checks st;
                       dec_made := dec_made st ++ [checkTypeName] |} in
          match yaml_Unmarshal rawCheckData chk with
          | DecodeError e => (st, Some e)
          | Decoded chk =>
              let c := dec_checks st in
              decode_blocks checkTypeName checkFactory rest
                {| dec_checks := <[checkTypeName := default [] (c !! checkTypeName) ++ [chk]]> c;
                   dec_made := dec_made st |}
          end
      end
  end.

(** [for checkTypeName, checks := range encoded { ... }] *)
Fixpoint decode_entries (entries : list (string * list raw)) (st : decoder)
    : decoder * error :=
  match entries with
  | [] => (st, None)
  | (checkTypeName, blocks) :: rest =>
      match KnownChecks !! checkTypeName with
      | None => (st, Some ("unknown check " +:+ quoted checkTypeName))
      | Some checkFactory =>
          match decode_blocks checkTypeName checkFactory blocks st with
          | (st, None) => decode_entries rest st
          | (st, Some e) => (st, Some e)
          end
      end
  end.

(** What the body of the inner loop makes of one block: [yaml.Marshal], a
    call of the factory, [yaml.Unmarshal] onto the fresh instance (used to
    state what is decoded). *)
Definition decode_block (checkFactory : unit → check) (checkData : raw) : decoded check :=
  match yaml_Marshal checkData with
  | DecodeError e => DecodeError e
  | Decoded rawCheckData => yaml_Unmarshal rawCheckData (checkFactory ())
  end.

(** The factory calls made for an entry of [encoded]: one per block. *)
Definition factory_calls (entry : string * list raw) : list string :=
  replicate (length entry.2) entry.1.

(** [func (c *Checks) UnmarshalYAML(unmarshal func(interface{}) error) error];
    [c] is [*c] on entry, [unmarshal] the result of the callback on
    [&encoded]. *)
Definition Checks_UnmarshalYAML (c : gmap string (list check))
    (unmarshal : decoded (gmap string (list raw))) : decoder * error :=
  match unmarshal with
  | DecodeError e => ({| dec_checks := c; dec_made := [] |}, Some e)
  | Decoded encoded =>
      decode_entries (range_order 0%nat encoded) {| dec_checks := ∅; dec_made := [] |}
  end.
End unmarshal.

(** The message [msg] has [name] somewhere in it. *)
Definition mentions (msg name : string) : bool :=
  match String.index 0 name msg with Some _ => true | None => false end.

Arguments decoder : clear implicits.

(** [func New(v string) *Config] *)
Definition New (v : string) : Config Check :=
  {| MinVersion := v;
     Modes :=
       {[ PreCommit :=
            {| MaxDuration := 5;
               settings_Checks :=
                 {[ "build" := [build []];
                    "gofmt" := [gofmt];
                    "test" := [test ["-short"]] ]} |};
          PrePush :=
            {| MaxDuration := 15;
               settings_Checks :=
                 {[ "goimports" := [goimports];
                    "coverage" :=
                      [Coverage false
                         {| MinCoverage := 50; MaxCoverage := 100 |}
                         {| MinCoverage := 0; MaxCoverage := 0 |}
                         ∅];
                    "test" := [test ["-v"; "-race"]] ]} |};
          ContinuousIntegration :=
            {| MaxDuration := 120;
               settings_Checks :=
                 {[ "build" := [build []];
                    "gofmt" := [gofmt];
                    "goimports" := [goimports];
                    "coverage" :=
                      [Coverage true
                         {| MinCoverage := 50; MaxCoverage := 100 |}
                         {| MinCoverage := 0; MaxCoverage := 0 |}
                         ∅];
                    "test" := [test ["-v"; "-race"]] ]} |};
          Lint :=
            {| MaxDuration := 15;
               settings_Checks :=
                 {[ "errcheck" := [errcheck "Close"];
                    "golint" := [golint []];
                    "govet" := [govet [" composite literal uses unkeyed fields"]] ]} |}
       ]};
     IgnorePatterns := [".*"; "_*"; "*.pb.go"] |}.

(** *** Vocabulary for the statements about [EnabledChecks] and [New] *)

(** The budgets configured for the requested modes, [c.Modes[mode].MaxDuration]
    for each requested mode in turn. *)
Definition budgets {check : Type} (c : Config check) (modes : list Mode) : list Z :=
  (λ mode, MaxDuration (Modes_at c mode)) <$> modes.

(** The maximum of a list of integers; a list without elements has none. *)
Fixpoint max_of (l : list Z) : option Z :=
  match l with
  | [] => None
  | x :: rest => Some (match max_of rest with Some m => Z.max x m | None => x end)
  end.

(** The check instances declared under a mode: the lists of its [Checks]
    map, one after the other (in the order of the keys). *)
Definition declared {check : Type} (c : Config check) (mode : Mode) : list check :=
  concat ((map_to_list (settings_Checks (Modes_at c mode))).*2).

(** A check with the upload to coveralls.io switched on, if it has one. *)
Definition with_upload (x : Check) : Check :=
  match x with
  | Coverage _ g d p => Coverage true g d p
  | _ => x
  end.

Section decoded.
(** Vocabulary for what [Checks.UnmarshalYAML] stores when it succeeds. *)
Context {check raw bytes : Type}.
Context (KnownChecks : gmap string (unit → check)).
Context (yaml_Marshal : raw → decoded bytes).
Context (yaml_Unmarshal : bytes → check → decoded check).

(** The blocks under one type name, each filled into an instance of its
    own, in the order of the blocks; [None] when a block does not decode. *)
Fixpoint decode_all (checkFactory : unit → check) (blocks : list raw) : option (list check) :=
  match blocks with
  | [] => Some []
  | checkData :: rest =>
      match decode_block yaml_Marshal yaml_Unmarshal checkFactory checkData with
      | Decoded chk => (chk ::.) <$> decode_all checkFactory rest
      | DecodeError _ => None
      end
  end.

(** The checks of a block, type name by type name: a name with blocks is
    bound to their instances, a name with an empty list is not bound. *)
Definition decoded_checks (encoded : gmap string (list raw)) : gmap string (list check) :=
  map_imap (λ name blocks,
              match blocks with
              | [] => None
              | _ => KnownChecks !! name ≫= λ checkFactory, decode_all checkFactory blocks
              end) encoded.
End decoded.

End checks.

(** ** Package [definitions] (checks/definitions) *)
Module definitions.

(** [type CheckPrerequisite struct] *)
Record CheckPrerequisite : Type := mkCheckPrerequisite {
  HelpCommand : list string;
  ExpectedExitCode : Z;
  URL : string
}.

(** What [Capture] returns: the combined output, the exit code and the
    error. *)
Record captured : Type := mkCaptured {
  cap_out : string;
  cap_exitCode : Z;
  cap_err : error
}.

Section probe.
(** [internal.Capture(wd, env, args...)]: the command runner, outside this
    file; it stands for what the operating system answers. *)
Context (Capture : string → list string → list string → captured).

(** [func (c *CheckPrerequisite) IsPresent() bool] *)
Definition IsPresent (c : CheckPrerequisite) : bool :=
  let exitCode := cap_exitCode (Capture "" [] (HelpCommand c)) in
  exitCode =? ExpectedExitCode c.
End probe.

End definitions.

(** ** Worker goroutines, a buffered channel and a [sync.WaitGroup]

    Both [installPrereq] and [run] follow one pattern: the main goroutine
    makes a channel with a fixed buffer, starts one goroutine per task
    ([wg.Add(1); go func() { defer wg.Done(); ... }]), blocks in [wg.Wait()]
    and only afterwards receives from the channel.  Until [wg.Wait()] returns
    nobody receives, so a send completes exactly when the buffer has room. *)
Module gochan.

Section pool.
Context {A : Type}.

(** A worker goroutine: [Some l] still has to send the values [l], in
    order, and then runs its deferred [wg.Done()]; [None] has done so. *)
Definition worker : Type := option (list A).

(** The buffer of the channel (oldest value first) and the workers. *)
Record state : Type := mkState {
  chan : list A;
  workers : list worker
}.

(** [make(chan A, cap)] *)
Context (cap : nat).

(** The next step of worker [i]: a send that finds room in the buffer, or
    [wg.Done()] once nothing is left to send.  [None]: the worker is
    blocked in a send on the full buffer, has finished, or does not
    exist. *)
Definition try_step (st : state) (i : nat) : option state :=
  match workers st !! i with
  | Some (Some (v :: rest)) =>
      if decide (length (chan st) < cap)%nat
      then Some {| chan := chan st ++ [v]; workers := <[i := Some rest]> (workers st) |}
      else None
  | Some (Some []) =>
      Some {| chan := chan st; workers := <[i := None]> (workers st) |}
  | _ => None
  end.

(** Some worker takes a step. *)
Definition step (st st' : state) : Prop := ∃ i, try_step st i = Some st'.

(** The states of all interleavings. *)
Definition reachable : state → state → Prop := rtc step.

Definition finished (w : worker) : bool :=
  match w with None => true | Some _ => false end.

(** [wg.Wait()] returns: the counter is zero, every worker has run
    [wg.Done()]. *)
Definition wait_returns (st : state) : bool := forallb finished (workers st).

(** No worker can take a step. *)
Definition stuck (st : state) : Prop := ∀ i, try_step st i = None.

Definition stuckb (st : state) : bool :=
  forallb (λ i, match try_step st i with None => true | Some _ => false end)
          (seq 0 (length (workers st))).

(** All goroutines are asleep: the workers that are left are blocked in a
    send and the main goroutine is blocked in [wg.Wait()]. *)
Definition deadlocked (st : state) : Prop := stuck st ∧ wait_returns st = false.

(** The state after the [go] statements: an empty buffer, and every worker
    with the sends its task leads to. *)
Definition spawn (sends : list (list A)) : state :=
  {| chan := []; workers := Some <$> sends |}.

(** Running under a schedule: the scheduler picks worker [i]; a pick that
    cannot step leaves the state as it is. *)
Fixpoint exec (sched : list nat) (st : state) : state :=
  match sched with
  | [] => st
  | i :: rest => exec rest (default st (try_step st i))
  end.

(** What one interleaving ends in, seen from the main goroutine. *)
Inductive outcome : Type :=
  | Joined (received : list A)   (* [wg.Wait()] returned; the buffer holds [received] *)
  | Deadlock                     (* fatal error: all goroutines are asleep *)
  | Underway.                    (* the schedule was too short to tell *)

Definition observe (st : state) : outcome :=
  if wait_returns st then Joined (chan st)
  else if stuckb st then Deadlock else Underway.

(** The values still to be sent by a worker, and by all of them. *)
Definition pending (w : worker) : list A := default [] w.
Definition unsent (st : state) : list A := workers st ≫= pending.

(** The number of steps the workers can still take at most. *)
Definition fuel_of (w : worker) : nat :=
  match w with None => 0 | Some l => S (length l) end.
Definition fuel (st : state) : nat := sum_list (fuel_of <$> workers st).
End pool.

Arguments state : clear implicits.
Arguments worker : clear implicits.
Arguments outcome : clear implicits.

End gochan.

(** ** The command (main.go) *)
Module main.
Import definitions gochan.

(** [[]byte] output and error of a command both end up in messages built by
    [fmt.Errorf("prerequisites installation failed: %s", ...)]. *)
Definition installation_failed (what : string) : string :=
  "prerequisites installation failed: " +:+ what.

(** What a call of [installPrereq] or [run] comes to under one schedule of
    its goroutines. *)
Inductive verdict (R : Type) : Type :=
  | Returns (r : R)
  | NeverReturns       (* the Go runtime stops the program: deadlock *)
  | Unsettled.         (* the schedule was too short to tell *)
Arguments Returns {R} r.
Arguments NeverReturns {R}.
Arguments Unsettled {R}.

Section installPrereq.
Context {check : Type}.
(** [check.GetPrerequisites()], a method of the [Check] interface. *)
Context (GetPrerequisites : check → list CheckPrerequisite).
(** [internal.Capture], behind [prereq.IsPresent()]. *)
Context (Capture : string → list string → list string → captured).
(** [capture(args...)], the command runner of package main; [world] is the
    state of the machine the commands act on. *)
Context {world : Type}.
Context (capture : world → list string → captured * world).
(** The order in which [for url := range m] visits the keys of [m]. *)
Context (range_keys : gset string → list string).

(** The body of the goroutine started for one prerequisite:
    [if !prereq.IsPresent() { c <- prereq.URL }]. *)
Definition probe (prereq : CheckPrerequisite) : list string :=
  if IsPresent Capture prereq then [] else [URL prereq].

(** The goroutines started by the two nested loops, in the order they are
    started. *)
Definition probes (enabledChecks : list check) : list (list string) :=
  probe <$> (enabledChecks ≫= GetPrerequisites).

(** The prerequisites declared by the enabled checks whose probe does not
    exit with the expected code (used to state what is reported). *)
Definition missing (enabledChecks : list check) : list CheckPrerequisite :=
  filter (λ p, cap_exitCode (Capture "" [] (HelpCommand p)) ≠ ExpectedExitCode p)
         (enabledChecks ≫= GetPrerequisites).

(** The state once all goroutines are started, with
    [c := make(chan string, len(enabledChecks))]. *)
Definition probing (enabledChecks : list check) : state string :=
  spawn (probes enabledChecks).

(** [m := map[string]bool{}; for loop { select { case url := <-c: m[url] = true;
    default: loop = false } }] on a channel holding [buf]. *)
Definition drain_urls (buf : list string) : gset string :=
  foldl (λ m url, {[ url ]} ∪ m) ∅ buf.

(** [urls := ...; for url := range m { urls = append(urls, url) };
    sort.Strings(urls)] *)
Definition sorted_urls (m : gset string) : list string :=
  merge_sort String.le (range_keys m).

(** The result of the installation: the error returned, the machine
    afterwards, and the command lines that were run, in order. *)
Record installed : Type := mkInstalled {
  inst_err : error;
  inst_world : world;
  inst_ran : list (list string)
}.

(** The body of [if len(urls) != 0 { ... }], from the first [capture]. *)
Definition go_get (urls : list string) (w : world) : installed :=
  let cmd := ["go"; "get"] ++ urls in
  let '(r, w) := capture w cmd in
  let '(r, w, ran) :=
    if negb (String.length (cap_out r) =? 0)%nat || negb (bool_decide (cap_err r = None))
    then let cmd_u := ["go"; "get"; "-u"] ++ urls in
         let '(r, w) := capture w cmd_u in (r, w, [cmd; cmd_u])
    else (r, w, [cmd]) in
  if negb (String.length (cap_out r) =? 0)%nat
  then mkInstalled (Some (installation_failed (cap_out r))) w ran
  else match cap_err r with
       | Some e => mkInstalled (Some (installation_failed e)) w ran
       | None => mkInstalled None w ran
       end.

(** [installPrereq] from the line after [wg.Wait()], the channel holding
    [buf]. *)
Definition install_missing (buf : list string) (w : world) : installed :=
  let urls := sorted_urls (drain_urls buf) in
  if (length urls =? 0)%nat then mkInstalled None w [] else go_get urls w.

(** [func installPrereq(config, r) error] returns [res]: under some
    interleaving of the probing goroutines [wg.Wait()] returns, and the
    rest of the function computes [res] (together with the sorted list of
    missing locators it printed). *)
Definition installPrereq_returns (enabledChecks : list check) (w : world)
    (urls : list string) (res : installed) : Prop :=
  ∃ st, reachable (length enabledChecks) (probing enabledChecks) st
        ∧ wait_returns st = true
        ∧ urls = sorted_urls (drain_urls (chan st))
        ∧ res = install_missing (chan st) w.

(** [installPrereq] never returns: some interleaving ends with every
    goroutine asleep. *)
Definition installPrereq_deadlocks (enabledChecks : list check) : Prop :=
  ∃ st, reachable (length enabledChecks) (probing enabledChecks) st
        ∧ deadlocked (length enabledChecks) st.

(** [installPrereq] under one schedule of the goroutines. *)
Definition installPrereq_under (sched : list nat) (enabledChecks : list check)
    (w : world) : verdict (list string * installed) :=
  match observe (length enabledChecks) (exec (length enabledChecks) sched (probing enabledChecks)) with
  | Joined buf => Returns (sorted_urls (drain_urls buf), install_missing buf w)
  | Deadlock => NeverReturns
  | Underway => Unsettled
  end.
End installPrereq.

Arguments installed : clear implicits.

(** A check as the runner sees it: its name, what [check.Run()] returns, and
    the time [callRun] measures around it, in nanoseconds. *)
Record check_run : Type := mkCheckRun {
  GetName : string;
  Run : error;
  Run_took : Z
}.

(** [func callRun(check checks.Check) (error, time.Duration)].  A check that
    is a [sync.Locker] is locked around the measured call; the lock belongs
    to the check and has no part in what [run] collects. *)
Definition callRun (check : check_run) : error * Z := (Run check, Run_took check).

(** The errors that travel through [run]: the error of a check, the error
    made by [fmt.Errorf("check %s took %1.2fs", name, seconds)], and the one
    made by [fmt.Errorf("checks failed in %1.2fs", seconds)].  The durations
    are kept in nanoseconds, not formatted. *)
Inductive run_error : Type :=
  | CheckError (msg : string)
  | TookTooLong (name : string) (duration : Z)
  | ChecksFailed (elapsed : Z).

(** Conversion to [int64] (two's complement wrap-around). *)
Definition int64 (z : Z) : Z := (z + 2 ^ 63) mod 2 ^ 64 - 2 ^ 63.

(** [time.Second] *)
Definition Second : Z := 1000000000.

(** [duration > time.Duration(max)*time.Second] *)
Definition over_budget (duration max : Z) : bool :=
  duration >? int64 (int64 max * Second).

(** The body of the goroutine started for one check, as the sends it makes
    on [errs]. *)
Definition check_sends (max : Z) (check : check_run) : list run_error :=
  let '(err, duration) := callRun check in
  (match err with Some e => [CheckError e] | None => [] end)
  ++ (if over_budget duration max then [TookTooLong (GetName check) duration] else []).

(** The state once all goroutines are started, with
    [errs := make(chan error, len(enabledChecks))]. *)
Definition running (enabledChecks : list check_run) (max : Z) : state run_error :=
  spawn (check_sends max <$> enabledChecks).

(** [var err error; for { select { case err = <-errs: ...; default: ... } }]
    on a channel holding [buf]; [wall] is [time.Now().Sub(start)]. *)
Fixpoint drain_errs (buf : list run_error) (err : option run_error) (wall : Z)
    : option run_error :=
  match buf with
  | e :: rest => drain_errs rest (Some e) wall
  | [] => match err with
          | Some _ => Some (ChecksFailed wall)
          | None => None
          end
  end.

(** [func run(config, r) error] returns [res], the enabled checks and the
    budget being [enabledChecks] and [max]. *)
Definition run_returns (enabledChecks : list check_run) (max wall : Z)
    (res : option run_error) : Prop :=
  ∃ st, reachable (length enabledChecks) (running enabledChecks max) st
        ∧ wait_returns st = true
        ∧ res = drain_errs (chan st) None wall.

(** [run] never returns. *)
Definition run_deadlocks (enabledChecks : list check_run) (max : Z) : Prop :=
  ∃ st, reachable (length enabledChecks) (running enabledChecks max) st
        ∧ deadlocked (length enabledChecks) st.

(** [run] under one schedule of the goroutines. *)
Definition run_under (sched : list nat) (enabledChecks : list check_run) (max wall : Z)
    : verdict (option run_error) :=
  match observe (length enabledChecks) (exec (length enabledChecks) sched (running enabledChecks max)) with
  | Joined buf => Returns (drain_errs buf None wall)
  | Deadlock => NeverReturns
  | Underway => Unsettled
  end.

(** The failures a run collects: those its goroutines send on [errs]. *)
Definition failures (enabledChecks : list check_run) (max : Z) : list run_error :=
  enabledChecks ≫= check_sends max.

Section help.
(** [func help(config, usage) error]: the struct [s] it fills from
    [checks.KnownChecks] (here a map from type name to check) before it hands
    it to the template. *)
Context {check : Type}.
Context (GetPrerequisites : check → list CheckPrerequisite).
(** The order in which [for name, c := range checks.KnownChecks] visits the
    registry. *)
Context (range_order : gmap string check → list (string * check)).

Record help_struct : Type := mkHelpStruct {
  Usage : string;
  Max : Z;
  NativeChecks : list check;
  OtherChecks : list check
}.

(** The body of the loop. *)
Definition help_visit (s : help_struct) (entry : string * check) : help_struct :=
  let '(name, c) := entry in
  let v := Z.of_nat (String.length name) in
  let s := if v >? Max s then mkHelpStruct (Usage s) v (NativeChecks s) (OtherChecks s) else s in
  if (length (GetPrerequisites c) =? 0)%nat
  then mkHelpStruct (Usage s) (Max s) (NativeChecks s ++ [c]) (OtherChecks s)
  else mkHelpStruct (Usage s) (Max s) (NativeChecks s) (OtherChecks s ++ [c]).

(** The struct after the loop. *)
Definition help (KnownChecks : gmap string check) (usage : string) : help_struct :=
  foldl help_visit (mkHelpStruct usage 0 [] []) (range_order KnownChecks).
End help.

Arguments help_struct : clear implicits.

(** [dst[i], dst[i+1], ... = vals]: the element-wise stores of [copy]. *)
Fixpoint store_at {A : Type} (a : list A) (i : nat) (vals : list A) : list A :=
  match vals with
  | [] => a
  | v :: rest => store_at (<[i := v]> a) (S i) rest
  end.

(** [copy(a[dst:], a[src:])] on one array: as many elements as the shorter
    of the two slices holds are copied, the source being read as it was
    before the call. *)
Definition copy_within {A : Type} (a : list A) (dst src : nat) : list A :=
  let from := drop src a in
  store_at a dst (take (Nat.min (length a - dst) (length from)) from).

(** The first lines of [mainImpl]: the command word and [os.Args] as the
    flag parser finds them; [None] when [os.Args[1]] is out of range. *)
Definition take_command (Args : list string) : option (string * list string) :=
  if (length Args =? 1)%nat then Some ("installrun", Args)
  else match Args !! 1%nat with
       | None => None
       | Some cmd =>
           let Args := copy_within Args 1 2 in
           Some (cmd, take (length Args - 1) Args)
       end.

End main.

(** * Properties *)

(** ** Formatted messages

    [fmt.Errorf] with one [%s] verb writes the argument between a fixed
    prefix and a fixed suffix; the argument can be read back from the
    message at the length of the prefix. *)
Lemma substring_prefix (s post : string) :
  String.substring 0 (String.length s) (s +:+ post) = s.
Proof.
induction s as [|a s IH]; simpl.
- by destruct post.
- by rewrite IH.
Qed.

Lemma substring_infix (pre s post : string) :
  String.substring (String.length pre) (String.length s) (pre +:+ s +:+ post) = s.
Proof.
induction pre as [|a pre IH]; [exact (substring_prefix s post)|exact IH].
Qed.

Lemma append_empty_r (s : string) : s +:+ "" = s.
Proof.
induction s as [|a s IH]; [done|].
change (String a (s +:+ "") = String a s). by f_equal.
Qed.

Lemma substring_suffix (pre s : string) :
  String.substring (String.length pre) (String.length s) (pre +:+ s) = s.
Proof. pose proof (substring_infix pre s "") as H. by rewrite append_empty_r in H. Qed.

Lemma mentions_infix (pre s post : string) :
  checks.mentions (pre +:+ s +:+ post) s = true.
Proof.
unfold checks.mentions.
destruct (String.index 0 s (pre +:+ s +:+ post)) as [k|] eqn:Hi; [done|].
exfalso. destruct s as [|a s].
- destruct (pre +:+ "" +:+ post); simpl in Hi; discriminate.
- apply (String.index_correct3 0 (String.length pre)) in Hi; [|done|lia].
  apply Hi, substring_infix.
Qed.

(** ** The goroutine pool *)
Section pool_facts.
Import gochan.
Context {A : Type} (cap : nat).
Implicit Types (st : state A) (w : worker A) (ws : list (worker A)).

Lemma fuel_insert ws i w w' :
  ws !! i = Some w →
  (sum_list (fuel_of <$> <[i := w']> ws) + fuel_of w
   = sum_list (fuel_of <$> ws) + fuel_of w')%nat.
Proof.
  revert i. induction ws as [|x ws IH]; intros [|i] Hi; simplify_eq/=; [lia|].
  specialize (IH _ Hi). lia.
Qed.

Lemma unsent_insert ws i w w' :
  ws !! i = Some w →
  (<[i := w']> ws ≫= pending) ++ pending w ≡ₚ (ws ≫= pending) ++ pending w'.
Proof.
  revert i. induction ws as [|x ws IH]; intros [|i] Hi; simplify_eq/=.
  - solve_Permutation.
  - specialize (IH _ Hi). rewrite <- !(assoc_L (++)). by rewrite IH.
Qed.

(** Every step uses up one unit of fuel: interleavings are finite. *)
Lemma try_step_fuel st i st' :
  try_step cap st i = Some st' → S (fuel st') = fuel st.
Proof.
  unfold try_step, fuel. destruct (workers st !! i) as [[[|v rest]|]|] eqn:Hi; [| |done..].
  - intros [= <-]; simpl. pose proof (fuel_insert _ _ _ None Hi) as H. simpl in H. unfold worker in *. lia.
  - case_decide; [|done]. intros [= <-]; simpl.
    pose proof (fuel_insert _ _ _ (Some rest) Hi) as Hf. simpl in Hf. unfold worker in *. lia.
Qed.

(** A step moves a value from a worker into the buffer, or moves nothing. *)
Lemma try_step_conserves st i st' :
  try_step cap st i = Some st' → chan st' ++ unsent st' ≡ₚ chan st ++ unsent st.
Proof.
  unfold try_step, unsent. destruct (workers st !! i) as [[[|v rest]|]|] eqn:Hi; [| |done..].
  - intros [= <-]; simpl. pose proof (unsent_insert _ _ _ None Hi) as H.
    simpl in H. rewrite !(right_id_L [] (++)) in H. by rewrite H.
  - case_decide; [|done]. intros [= <-]; simpl.
    pose proof (unsent_insert _ _ _ (Some rest) Hi) as Hu. simpl in Hu.
    rewrite <- (assoc_L (++)). apply Permutation_app_head.
    apply (Permutation_app_inv_r rest). rewrite <- Hu. solve_Permutation.
Qed.

Lemma try_step_room st i st' :
  try_step cap st i = Some st' →
  (length (chan st) ≤ cap)%nat → (length (chan st') ≤ cap)%nat.
Proof.
  unfold try_step. destruct (workers st !! i) as [[[|v rest]|]|]; [| |done..].
  - by intros [= <-].
  - case_decide; [|done]. intros [= <-]; simpl. rewrite length_app; simpl. lia.
Qed.

Lemma reachable_fuel st st' : reachable cap st st' → (fuel st' ≤ fuel st)%nat.
Proof.
  induction 1 as [|x y z [i Hi] _ IH]; [done|]. apply try_step_fuel in Hi. lia.
Qed.

Lemma reachable_conserves st st' :
  reachable cap st st' → chan st' ++ unsent st' ≡ₚ chan st ++ unsent st.
Proof.
  induction 1 as [|x y z [i Hi] _ IH]; [done|].
  by rewrite IH, (try_step_conserves _ _ _ Hi).
Qed.

Lemma reachable_room st st' :
  reachable cap st st' → (length (chan st) ≤ cap)%nat → (length (chan st') ≤ cap)%nat.
Proof.
  induction 1 as [|x y z [i Hi] _ IH]; [done|]. eauto using try_step_room.
Qed.

Lemma exec_reachable sched st : reachable cap st (exec cap sched st).
Proof.
  revert st. induction sched as [|i sched IH]; intros st; simpl; [apply rtc_refl|].
  destruct (try_step cap st i) as [st'|] eqn:Hi; simpl; [|apply IH].
  eapply rtc_l; [by exists i|apply IH].
Qed.

Lemma unsent_spawn (sends : list (list A)) : unsent (spawn sends) = concat sends.
Proof.
  unfold unsent, spawn; simpl. induction sends as [|l sends IH]; [done|].
  rewrite fmap_cons, bind_cons, IH. done.
Qed.

Lemma wait_returns_unsent st : wait_returns st = true → unsent st = [].
Proof.
  unfold wait_returns, unsent. induction (workers st) as [|[l|] ws IH]; simpl; try done.
Qed.

Lemma stuckb_stuck st : stuckb cap st = true ↔ stuck cap st.
Proof.
  unfold stuckb, stuck. rewrite forallb_forall. split.
  - intros H i. destruct (decide (i < length (workers st))%nat) as [Hlt|Hge].
    + specialize (H i). rewrite in_seq in H.
      destruct (try_step cap st i); [|done]. discriminate H. lia.
    + unfold try_step. destruct (workers st !! i) eqn:Hi; [|done].
      apply lookup_lt_Some in Hi. destruct (Hge Hi).
  - intros H i _. by rewrite H.
Qed.

(** A stuck pool that has not joined holds a worker blocked in a send on
    a full buffer. *)
Lemma stuck_blocked st :
  stuck cap st → wait_returns st = false →
  (cap ≤ length (chan st))%nat ∧ unsent st ≠ [].
Proof.
  unfold stuck, wait_returns, try_step, unsent. intros Hstuck Hwait.
  assert (∃ i l, workers st !! i = Some (Some l)) as (i & l & Hi).
  { revert Hwait. clear. induction (workers st) as [|[l|] ws IH]; simpl; [done| |].
    - intros _. by exists 0%nat, l.
    - intros (i & l & ?)%IH. by exists (S i), l. }
  specialize (Hstuck i). rewrite Hi in Hstuck. destruct l as [|v rest]; [done|].
  case_decide; [done|]. split; [lia|].
  intros Hnil. apply list_elem_of_lookup_2 in Hi.
  assert (v ∈ workers st ≫= pending) as Hv.
  { apply list_elem_of_bind. exists (Some (v :: rest)). split; [simpl; left|done]. }
  rewrite Hnil in Hv. by apply elem_of_nil in Hv.
Qed.

(** Every interleaving can be run until no worker can step. *)
Lemma runs_to_stuck st : ∃ st', reachable cap st st' ∧ stuck cap st'.
Proof.
  remember (fuel st) as n eqn:Hn. revert st Hn.
  induction n as [n IH] using lt_wf_ind. intros st ->.
  destruct (stuckb cap st) eqn:Hs.
  - exists st. split; [apply rtc_refl|by apply stuckb_stuck].
  - assert (∃ i st1, try_step cap st i = Some st1) as (i & st1 & Hi).
    { unfold stuckb in Hs. apply not_true_iff_false in Hs.
      rewrite forallb_forall in Hs.
      destruct (decide (Forall (λ i, try_step cap st i = None) (seq 0 (length (workers st)))))
        as [Hall|Hex].
      - exfalso. apply Hs. intros i Hin. rewrite Forall_forall in Hall.
        rewrite (Hall i); [done|]. by apply list_elem_of_In.
      - apply not_Forall_Exists in Hex; [|solve_decision].
        apply Exists_exists in Hex as (i & _ & Hne).
        destruct (try_step cap st i) as [st1|] eqn:Hi; [by exists i, st1|done]. }
    destruct (IH (fuel st1)) with (st := st1) as (st' & Hr & Hst); [|done|].
    + apply try_step_fuel in Hi. lia.
    + exists st'. split; [|done]. eapply rtc_l; [by exists i|done].
Qed.

(** With room for every value in the buffer no interleaving deadlocks:
    whenever no worker can step, [wg.Wait()] returns. *)
Lemma room_no_deadlock (sends : list (list A)) st :
  (length (concat sends) ≤ cap)%nat →
  reachable cap (spawn sends) st → stuck cap st → wait_returns st = true.
Proof.
  intros Hroom Hr Hstuck. destruct (wait_returns st) eqn:Hw; [done|exfalso].
  destruct (stuck_blocked _ Hstuck Hw) as [Hfull Hleft].
  apply reachable_conserves, Permutation_length in Hr.
  rewrite unsent_spawn, !length_app in Hr. simpl in Hr.
  destruct (unsent st); [done|]. simpl in Hr. lia.
Qed.

(** ... and the main goroutine then finds every value in the buffer. *)
Lemma joined_received (sends : list (list A)) st :
  reachable cap (spawn sends) st → wait_returns st = true →
  chan st ≡ₚ concat sends.
Proof.
  intros Hr Hw. apply reachable_conserves in Hr.
  by rewrite (wait_returns_unsent _ Hw), unsent_spawn, (right_id_L [] (++)) in Hr.
Qed.

(** With more values than the buffer holds, [wg.Wait()] never returns. *)
Lemma overfull_never_joins (sends : list (list A)) st :
  (cap < length (concat sends))%nat →
  reachable cap (spawn sends) st → wait_returns st = false.
Proof.
  intros Hover Hr. destruct (wait_returns st) eqn:Hw; [exfalso|done].
  pose proof (joined_received _ _ Hr Hw) as Hp%Permutation_length.
  apply reachable_room in Hr; simpl in *; lia.
Qed.

Lemma room_joins (sends : list (list A)) :
  (length (concat sends) ≤ cap)%nat →
  ∃ st, reachable cap (spawn sends) st ∧ wait_returns st = true.
Proof.
  intros Hroom. destruct (runs_to_stuck (spawn sends)) as (st & Hr & Hs).
  exists st. eauto using room_no_deadlock.
Qed.

Lemma overfull_deadlocks (sends : list (list A)) :
  (cap < length (concat sends))%nat →
  ∃ st, reachable cap (spawn sends) st ∧ deadlocked cap st.
Proof.
  intros Hover. destruct (runs_to_stuck (spawn sends)) as (st & Hr & Hs).
  exists st. split; [done|]. split; [done|]. eauto using overfull_never_joins.
Qed.
End pool_facts.

(** ** [run]: the check runner *)
Section run_facts.
Import gochan main.
Implicit Types (enabledChecks : list check_run) (max wall : Z).

Lemma failures_concat enabledChecks max :
  concat (check_sends max <$> enabledChecks) = failures enabledChecks max.
Proof.
  unfold failures. induction enabledChecks as [|c cs IH]; [done|].
  by rewrite fmap_cons, bind_cons, <- IH.
Qed.

(** The drain loop reports failure exactly when it received something. *)
Lemma drain_errs_some buf e wall : drain_errs buf (Some e) wall = Some (ChecksFailed wall).
Proof. revert e. induction buf as [|x buf IH]; intros e; simpl; [done|apply IH]. Qed.

Lemma drain_errs_none buf wall :
  drain_errs buf None wall = match buf with [] => None | _ => Some (ChecksFailed wall) end.
Proof. destruct buf; simpl; [done|apply drain_errs_some]. Qed.

(** A check contributes no failure exactly when [Run] returned [nil] and
    its measured time is within the budget. *)
Lemma check_sends_nil max c :
  check_sends max c = [] ↔ Run c = None ∧ over_budget (Run_took c) max = false.
Proof.
  unfold check_sends, callRun.
  destruct (Run c), (over_budget _ _); simpl; split; try done; by intros [??].
Qed.

Lemma failures_nil enabledChecks max :
  failures enabledChecks max = [] ↔
  ∀ c, c ∈ enabledChecks → Run c = None ∧ over_budget (Run_took c) max = false.
Proof.
  unfold failures. induction enabledChecks as [|c cs IH].
  - split; [|done]. intros _ c Hc. by apply elem_of_nil in Hc.
  - rewrite bind_cons. split.
    + intros [H1 H2]%app_nil c' [->|Hc']%elem_of_cons.
      * by apply check_sends_nil.
      * by apply IH.
    + intros H. apply app_nil. split.
      * apply check_sends_nil, H. left.
      * apply IH. intros c' Hc'. apply H. by right.
Qed.

(** Without wrap-around the comparison is the one on seconds. *)
Lemma over_budget_seconds duration max :
  - 2 ^ 63 ≤ max * Second < 2 ^ 63 →
  over_budget duration max = (duration >? max * Second).
Proof.
  intros Hr. unfold over_budget, int64, Second in *.
  assert ((max + 2 ^ 63) mod 2 ^ 64 - 2 ^ 63 = max) as ->.
  { rewrite Z.mod_small; lia. }
  rewrite Z.mod_small; [f_equal; lia | lia].
Qed.

(** When the failures fit into the channel, [run] returns under every
    interleaving, and what it returns is [nil] exactly when no failure was
    collected and the aggregate error with the wall-clock time otherwise. *)
Lemma run_with_room enabledChecks max wall :
  (length (failures enabledChecks max) ≤ length enabledChecks)%nat →
  (∃ res, run_returns enabledChecks max wall res)
  ∧ ¬ run_deadlocks enabledChecks max
  ∧ ∀ res, run_returns enabledChecks max wall res →
      (res = None ↔ failures enabledChecks max = [])
      ∧ (failures enabledChecks max ≠ [] → res = Some (ChecksFailed wall)).
Proof.
  intros Hroom. rewrite <- failures_concat in Hroom. split; [|split].
  - destruct (room_joins _ _ Hroom) as (st & Hr & Hw).
    by exists (drain_errs (chan st) None wall), st.
  - intros (st & Hr & Hs & Hw).
    by rewrite (room_no_deadlock _ _ _ Hroom Hr Hs) in Hw.
  - intros res (st & Hr & Hw & ->).
    pose proof (joined_received _ _ _ Hr Hw) as Hp. rewrite failures_concat in Hp.
    rewrite drain_errs_none. destruct (chan st) as [|e buf].
    + apply Permutation_nil_l in Hp. by rewrite <- Hp.
    + split; [|done]. split; [done|]. intros Hnil. rewrite Hnil in Hp.
      by apply Permutation_nil_r in Hp.
Qed.

(** When the checks send more failures than the channel holds, [run]
    never returns: every interleaving ends with all goroutines asleep. *)
Lemma run_overfull enabledChecks max :
  (length enabledChecks < length (failures enabledChecks max))%nat →
  (∀ wall res, ¬ run_returns enabledChecks max wall res)
  ∧ run_deadlocks enabledChecks max.
Proof.
  intros Hover. rewrite <- failures_concat in Hover. split.
  - intros wall res (st & Hr & Hw & _).
    by rewrite (overfull_never_joins _ _ _ Hover Hr) in Hw.
  - by apply overfull_deadlocks.
Qed.

(** C1 (defect in the code): [run] is claimed to return [nil] exactly when
    no failure is collected and an aggregate error otherwise.  The channel
    [errs] holds [len(enabledChecks)] errors, while a check whose [Run]
    fails and which also exceeds the budget sends two.  For a single such
    check (budget 5s, 6s measured) the second send blocks for ever: [run]
    returns nothing under any interleaving, and the goroutines deadlock. *)
Theorem run_failing_slow_check_never_returns :
  let c := mkCheckRun "test" (Some "exit status 1") (6 * Second) in
  failures [c] 5 = [CheckError "exit status 1"; TookTooLong "test" (6 * Second)]
  ∧ (∀ wall res, ¬ run_returns [c] 5 wall res)
  ∧ run_deadlocks [c] 5
  ∧ (∀ wall, run_under [0; 0; 0]%nat [c] 5 wall = NeverReturns).
Proof.
  intros c. split; [done|]. split; [|split].
  - apply run_overfull. simpl. lia.
  - apply run_overfull. simpl. lia.
  - done.
Qed.
End run_facts.

(** ** [installPrereq]: the prerequisite resolver *)
Section installPrereq_facts.
Import definitions gochan main.
Context {check : Type} (GetPrerequisites : check → list CheckPrerequisite).
Context (Capture : string → list string → list string → captured).
Context {world : Type} (capture : world → list string → captured * world).
Context (range_keys : gset string → list string).
Implicit Types (enabledChecks : list check) (w : world) (buf urls : list string).

Local Abbreviation installPrereq_returns :=
  (installPrereq_returns GetPrerequisites Capture capture range_keys).
Local Abbreviation installPrereq_deadlocks :=
  (installPrereq_deadlocks GetPrerequisites Capture).
Local Abbreviation probes := (probes GetPrerequisites Capture).
Local Abbreviation missing := (missing GetPrerequisites Capture).
Local Abbreviation sorted_urls := (sorted_urls range_keys).
Local Abbreviation install_missing := (install_missing capture range_keys).

Lemma IsPresent_spec p :
  IsPresent Capture p = true ↔
  cap_exitCode (Capture "" [] (HelpCommand p)) = ExpectedExitCode p.
Proof. unfold IsPresent. apply Z.eqb_eq. Qed.

Lemma probes_concat enabledChecks :
  concat (probes enabledChecks) = URL <$> missing enabledChecks.
Proof.
  unfold main.probes, main.missing. induction (enabledChecks ≫= GetPrerequisites) as [|p ps IH];
    [done|].
  rewrite fmap_cons, filter_cons. simpl. rewrite IH. unfold probe.
  destruct (IsPresent Capture p) eqn:Hp.
  - apply IsPresent_spec in Hp. by rewrite decide_False by auto.
  - rewrite decide_True; [done|]. intros Heq%IsPresent_spec. congruence.
Qed.

Lemma drain_urls_elem buf url : url ∈ drain_urls buf ↔ url ∈ buf.
Proof.
  unfold drain_urls.
  assert (∀ m : gset string, url ∈ foldl (λ m url, {[ url ]} ∪ m) m buf ↔ url ∈ m ∨ url ∈ buf)
    as H.
  { induction buf as [|x buf IH]; intros m; simpl.
    - rewrite elem_of_nil. tauto.
    - rewrite IH, elem_of_cons, elem_of_union, elem_of_singleton. tauto. }
  rewrite H, elem_of_empty. tauto.
Qed.

Section ranged.
(** [range] visits every key of the map once. *)
Hypothesis range_keys_perm : ∀ m, range_keys m ≡ₚ elements m.

Lemma sorted_urls_perm m : sorted_urls m ≡ₚ elements m.
Proof. unfold main.sorted_urls. by rewrite merge_sort_Permutation. Qed.

Lemma sorted_urls_sorted m : StronglySorted String.le (sorted_urls m).
Proof. apply StronglySorted_merge_sort; apply _. Qed.

Lemma sorted_urls_NoDup m : NoDup (sorted_urls m).
Proof. rewrite sorted_urls_perm. apply NoDup_elements. Qed.

Lemma sorted_urls_elem m url : url ∈ sorted_urls m ↔ url ∈ m.
Proof. rewrite sorted_urls_perm. apply elem_of_elements. Qed.

(** When the missing locators fit into the channel, [installPrereq]
    gets past [wg.Wait()] under every interleaving, and the list it
    prints and installs is sorted, free of duplicates, and holds exactly
    the locators of the prerequisites whose probe did not exit with the
    expected code. *)
Lemma installPrereq_with_room enabledChecks w :
  (length (missing enabledChecks) ≤ length enabledChecks)%nat →
  (∃ urls res, installPrereq_returns enabledChecks w urls res)
  ∧ ¬ installPrereq_deadlocks enabledChecks
  ∧ ∀ urls res, installPrereq_returns enabledChecks w urls res →
      StronglySorted String.le urls ∧ NoDup urls
      ∧ ∀ url, url ∈ urls ↔
          ∃ p, p ∈ enabledChecks ≫= GetPrerequisites ∧ URL p = url
               ∧ cap_exitCode (Capture "" [] (HelpCommand p)) ≠ ExpectedExitCode p.
Proof.
  intros Hroom. rewrite <- (length_fmap URL), <- probes_concat in Hroom.
  split; [|split].
  - destruct (room_joins _ _ Hroom) as (st & Hr & Hw).
    by eexists _, _, st.
  - intros (st & Hr & Hs & Hw).
    by rewrite (room_no_deadlock _ _ _ Hroom Hr Hs) in Hw.
  - intros urls res (st & Hr & Hw & -> & _).
    split; [apply sorted_urls_sorted|]. split; [apply sorted_urls_NoDup|].
    intros url. rewrite sorted_urls_elem, drain_urls_elem.
    rewrite (joined_received _ _ _ Hr Hw), probes_concat, list_elem_of_fmap.
    unfold main.missing. split.
    + intros (p & -> & [Hne Hp]%list_elem_of_filter). by exists p.
    + intros (p & Hp & <- & Hne). exists p. split; [done|].
      by apply list_elem_of_filter.
Qed.
End ranged.

(** When more locators are missing than there are enabled checks,
    [installPrereq] never gets past [wg.Wait()]. *)
Lemma installPrereq_overfull enabledChecks :
  (length enabledChecks < length (missing enabledChecks))%nat →
  (∀ w urls res, ¬ installPrereq_returns enabledChecks w urls res)
  ∧ installPrereq_deadlocks enabledChecks.
Proof.
  intros Hover. rewrite <- (length_fmap URL), <- probes_concat in Hover. split.
  - intros w urls res (st & Hr & Hw & _).
    by rewrite (overfull_never_joins _ _ _ Hover Hr) in Hw.
  - by apply overfull_deadlocks.
Qed.
End installPrereq_facts.

(** C8 (defect in the code): every prerequisite whose probe does not exit
    with the expected code is claimed to be reported missing, once, in a
    sorted list.  The channel [c] holds [len(enabledChecks)] locators, while
    one goroutine per prerequisite may send.  For one enabled check (a
    [CustomCheck], whose [Prerequisites] is a list) that declares two
    prerequisites, both absent, the second send blocks for ever:
    [installPrereq] reports nothing under any interleaving. *)
Theorem installPrereq_two_missing_never_returns :
  let golint := definitions.mkCheckPrerequisite ["golint"; "-h"] 2
                  "github.com/golang/lint/golint" in
  let errcheck := definitions.mkCheckPrerequisite ["errcheck"; "-h"] 2
                    "github.com/kisielk/errcheck" in
  let GetPrerequisites := λ check : list definitions.CheckPrerequisite, check in
  let Capture := λ (_ : string) (_ _ : list string),
                   definitions.mkCaptured "" (-1) (Some "executable file not found") in
  let capture := λ (w : unit) (_ : list string), (definitions.mkCaptured "" 0 None, w) in
  let custom := [golint; errcheck] in
  main.missing GetPrerequisites Capture [custom] = [golint; errcheck]
  ∧ (∀ w urls res,
       ¬ main.installPrereq_returns GetPrerequisites Capture capture elements
           [custom] w urls res)
  ∧ main.installPrereq_deadlocks GetPrerequisites Capture [custom]
  ∧ main.installPrereq_under GetPrerequisites Capture capture elements
      [0; 1; 0; 1]%nat [custom] () = main.NeverReturns.
Proof.
intros golint errcheck GetPrerequisites Capture capture custom.
assert (main.missing GetPrerequisites Capture [custom] = [golint; errcheck]) as Hm.
{ by vm_compute. }
destruct (installPrereq_overfull GetPrerequisites Capture capture elements [custom])
  as [Hnever Hdead]; [rewrite Hm; simpl; lia|].
split; [done|]. split; [exact Hnever|]. split; [exact Hdead|done].
Qed.

(** ** [installPrereq]: fetching what is missing *)

(** The exit codes that [capture] reports play no part in [go_get]: two
    command runners that agree on the output, on the error and on the
    machine they leave behind give the same installation. *)
Lemma go_get_exit_code_blind {world : Type}
    (capture capture' : world → list string → definitions.captured * world)
    (urls : list string) (w : world) :
  (∀ w' cmd, definitions.cap_out (capture' w' cmd).1 = definitions.cap_out (capture w' cmd).1
             ∧ definitions.cap_err (capture' w' cmd).1 = definitions.cap_err (capture w' cmd).1
             ∧ (capture' w' cmd).2 = (capture w' cmd).2) →
  main.go_get capture' urls w = main.go_get capture urls w.
Proof.
intros Hsame. unfold main.go_get.
destruct (Hsame w (["go"; "get"] ++ urls)) as (Hout & Herr & Hw).
destruct (capture' w (["go"; "get"] ++ urls)) as [r1' w1'].
destruct (capture w (["go"; "get"] ++ urls)) as [r1 w1].
simpl in Hout, Herr, Hw. subst w1'. rewrite Hout, Herr.
destruct (negb (String.length (definitions.cap_out r1) =? 0)%nat
          || negb (bool_decide (definitions.cap_err r1 = None))).
- destruct (Hsame w1 (["go"; "get"; "-u"] ++ urls)) as (Hout2 & Herr2 & Hw2).
  destruct (capture' w1 (["go"; "get"; "-u"] ++ urls)) as [r2' w2'].
  destruct (capture w1 (["go"; "get"; "-u"] ++ urls)) as [r2 w2].
  simpl in Hout2, Herr2, Hw2. subst w2'. by rewrite Hout2, Herr2.
- by rewrite Hout, Herr.
Qed.

Section go_get_facts.
Import definitions main.
Context {world : Type} (capture : world → list string → captured * world).
Context (range_keys : gset string → list string).

Lemma length_zero_empty (s : string) : (String.length s =? 0)%nat = true ↔ s = "".
Proof. destruct s; simpl; split; done. Qed.

(** [go_get] by cases on what the two runs answer. *)
Lemma go_get_cases (urls : list string) (w w1 w2 : world) (r1 r2 : captured) :
  capture w (["go"; "get"] ++ urls) = (r1, w1) →
  capture w1 (["go"; "get"; "-u"] ++ urls) = (r2, w2) →
  go_get capture urls w =
    if decide (cap_out r1 = "" ∧ cap_err r1 = None)
    then mkInstalled None w1 [["go"; "get"] ++ urls]
    else mkInstalled
           (if decide (cap_out r2 = "") then installation_failed <$> cap_err r2
            else Some (installation_failed (cap_out r2)))
           w2 [["go"; "get"] ++ urls; ["go"; "get"; "-u"] ++ urls].
Proof.
  intros H1 H2. unfold go_get. simpl in H1, H2 |- *. rewrite H1.
  destruct (String.length (cap_out r1) =? 0)%nat eqn:Hout1; simpl.
  - apply length_zero_empty in Hout1. destruct (cap_err r1) as [e1|] eqn:Herr1; simpl.
    + rewrite H2. rewrite decide_False by (by intros [_ ?]).
      destruct (String.length (cap_out r2) =? 0)%nat eqn:Hout2; simpl.
      * apply length_zero_empty in Hout2. rewrite decide_True by done.
        by destruct (cap_err r2).
      * rewrite decide_False; [done|]. intros Hout%length_zero_empty. congruence.
    + rewrite decide_True by done. by rewrite Hout1, Herr1.
  - assert (cap_out r1 ≠ "") as Hne.
    { intros Hout%length_zero_empty. congruence. }
    rewrite H2. rewrite decide_False by (by intros [? _]).
    destruct (String.length (cap_out r2) =? 0)%nat eqn:Hout2; simpl.
    + apply length_zero_empty in Hout2. rewrite decide_True by done.
      by destruct (cap_err r2).
    + rewrite decide_False; [done|]. intros Hout%length_zero_empty. congruence.
Qed.

(** C9: with at least one locator missing, [go get] is run once on all of
    them without [-u]; it is run again, once and with [-u], exactly when
    the first run produced output or an error (the error result of
    [capture]; the exit code is discarded by the code, and runners that
    differ in their exit codes only give the same installation); when the
    second run still produces output the installation fails, and the error
    is [prerequisites installation failed: ] followed by that output, which
    is read back from the message at offset 35; when the first run produced
    neither output nor an error nothing else is run and the installation
    succeeds. *)
Theorem install_missing_two_phase (buf : list string) (w : world) :
  let urls := sorted_urls range_keys (drain_urls buf) in
  urls ≠ [] →
  let once := ["go"; "get"] ++ urls in
  let upgrade := ["go"; "get"; "-u"] ++ urls in
  let first := capture w once in
  let second := capture first.2 upgrade in
  let res := install_missing capture range_keys buf w in
  let retried := cap_out first.1 ≠ "" ∨ cap_err first.1 ≠ None in
  once ≠ upgrade
  ∧ (retried ↔ inst_ran res = [once; upgrade])
  ∧ (¬ retried ↔ inst_ran res = [once])
  ∧ (retried → cap_out second.1 ≠ "" →
       inst_err res = Some (installation_failed (cap_out second.1)))
  ∧ (retried → cap_out second.1 = "" →
       inst_err res = installation_failed <$> cap_err second.1)
  ∧ (retried → inst_world res = second.2)
  ∧ (¬ retried → inst_err res = None ∧ inst_world res = first.2)
  ∧ (retried → cap_out second.1 ≠ "" →
       ∃ e, inst_err res = Some e
         ∧ e = "prerequisites installation failed: " +:+ cap_out second.1
         ∧ String.substring 35 (String.length (cap_out second.1)) e = cap_out second.1
         ∧ checks.mentions e (cap_out second.1) = true)
  ∧ (retried → cap_out second.1 = "" →
       inst_err res
       = (λ e, "prerequisites installation failed: " +:+ e) <$> cap_err second.1)
  ∧ (∀ capture' : world → list string → captured * world,
       (∀ w' cmd, cap_out (capture' w' cmd).1 = cap_out (capture w' cmd).1
                  ∧ cap_err (capture' w' cmd).1 = cap_err (capture w' cmd).1
                  ∧ (capture' w' cmd).2 = (capture w' cmd).2) →
       install_missing capture' range_keys buf w = res).
Proof.
intros urls Hurls once upgrade first second res retried.
split.
{ unfold once, upgrade. simpl. intros [= H%(f_equal length)]. simpl in H. lia. }
assert (∀ capture' : world → list string → captured * world,
          (∀ w' cmd, cap_out (capture' w' cmd).1 = cap_out (capture w' cmd).1
                     ∧ cap_err (capture' w' cmd).1 = cap_err (capture w' cmd).1
                     ∧ (capture' w' cmd).2 = (capture w' cmd).2) →
          install_missing capture' range_keys buf w = res) as Hblind.
{ intros capture' Hsame. unfold res, install_missing. fold urls.
  destruct (length urls =? 0)%nat; [done|]. by apply go_get_exit_code_blind. }
assert (res = go_get capture urls w) as Hres.
{ unfold res, install_missing. fold urls. by destruct urls. }
clearbody res. subst res.
destruct first as [r1 w1] eqn:Hfirst. destruct second as [r2 w2] eqn:Hsecond.
rewrite (go_get_cases urls w w1 w2 r1 r2 Hfirst Hsecond) in Hblind |- *.
fold once upgrade in Hblind |- *. simpl in retried |- *.
destruct (decide (cap_out r1 = "" ∧ cap_err r1 = None)) as [[Hout Herr]|Hno]; simpl.
- assert (¬ retried) as Hnot by (intros [?|?]; done).
  split_and!; try done; by intros Hr; destruct Hnot.
- assert retried as Hyes.
  { unfold retried. destruct (decide (cap_out r1 = "")); [|by left].
    right. intros ?. by apply Hno. }
  assert ([once; upgrade] ≠ [once]) by done.
  split_and!; try done.
  + intros _ Hne. by rewrite decide_False.
  + intros _ Heq. by rewrite decide_True.
  + intros _ Hne. rewrite decide_False by done. eexists. split; [done|].
    unfold installation_failed. split; [done|]. split.
    * apply (substring_suffix "prerequisites installation failed: ").
    * pose proof (mentions_infix "prerequisites installation failed: " (cap_out r2) "") as H'.
      by rewrite append_empty_r in H'.
  + intros _ Heq. by rewrite decide_True.
Qed.
End go_get_facts.

(** C9, at a machine where the first [go get] prints a complaint and the
    second, with [-u], is silent: both commands run, in this order, and the
    installation succeeds. *)
Lemma install_missing_two_phase_witness :
  let url := "golang.org/x/tools/cmd/goimports" in
  let capture := λ (w : nat) (_ : list string),
    match w with
    | O => (definitions.mkCaptured "package golang.org/x/tools: unrecognized import path" 1 None, 1%nat)
    | S _ => (definitions.mkCaptured "" 0 None, S w)
    end in
  let res := main.install_missing capture elements [url] 0%nat in
  main.inst_ran res = [["go"; "get"; url]; ["go"; "get"; "-u"; url]]
  ∧ main.inst_err res = None.
Proof.
  intros url capture res.
  destruct (install_missing_two_phase capture elements [url] 0%nat)
    as (_ & Hran & _ & _ & Herr & _); [by vm_compute|].
  split.
  - apply Hran. left. by vm_compute.
  - apply Herr; [left|]; by vm_compute.
Defined.

(** C9 with the exit code read as the result fails: on a machine where the
    first [go get] prints nothing and ends with exit code 1, and [capture]
    returns that code with a nil error, nothing is run again and the
    installation succeeds. *)
Lemma install_missing_exit_code_not_retried :
  let url := "golang.org/x/tools/cmd/goimports" in
  let capture := λ (w : nat) (_ : list string), (definitions.mkCaptured "" 1 None, S w) in
  let first := (capture 0%nat ["go"; "get"; url]).1 in
  let res := main.install_missing capture elements [url] 0%nat in
  definitions.cap_exitCode first ≠ 0
  ∧ main.inst_ran res = [["go"; "get"; url]]
  ∧ main.inst_err res = None
  ∧ ¬ ((definitions.cap_out first ≠ "" ∨ definitions.cap_exitCode first ≠ 0)
       ↔ main.inst_ran res = [["go"; "get"; url]; ["go"; "get"; "-u"; url]]).
Proof.
intros url capture first res.
split; [by vm_compute|]. split; [by vm_compute|]. split; [by vm_compute|].
intros [Hretry _].
assert (main.inst_ran res = [["go"; "get"; url]; ["go"; "get"; "-u"; url]]) as Hran.
{ apply Hretry. right. by vm_compute. }
vm_compute in Hran. discriminate Hran.
Qed.

(** ** [Mode.UnmarshalYAML] *)
Section Mode_facts.
Import checks.

Lemma Mode_find_spec val known :
  Mode_find val known = if decide (val ∈ known) then Some val else None.
Proof.
  induction known as [|k known IH]; simpl; [done|].
  destruct (String.eqb_spec val k) as [->|Hne].
  - rewrite decide_True; [done|left].
  - rewrite IH. destruct (decide (val ∈ known)) as [Hin|Hnot].
    + rewrite decide_True; [done|by right].
    + rewrite decide_False; [done|]. by intros [?|?]%elem_of_cons.
Qed.

(** C6: a decoded name that is one of the four modes is assigned and no
    error is returned; any other name leaves the receiver as it was and
    returns an error that names it: the message is [invalid mode ] followed
    by the name between two double quotes, so the name is read back from the
    message at offset 14. *)
Theorem Mode_UnmarshalYAML_closed (m : Mode) (s : string) :
  (s ∈ [PreCommit; PrePush; ContinuousIntegration; Lint] →
     Mode_UnmarshalYAML m (Decoded s) = (s, None))
  ∧ (s ∉ [PreCommit; PrePush; ContinuousIntegration; Lint] →
     Mode_UnmarshalYAML m (Decoded s) = (m, Some ("invalid mode " +:+ quoted s)))
  ∧ AllModes = ["pre-commit"; "pre-push"; "continuous-integration"; "lint"]
  ∧ (s ∉ ["pre-commit"; "pre-push"; "continuous-integration"; "lint"] →
     ∃ e, (Mode_UnmarshalYAML m (Decoded s)).2 = Some e
       ∧ e = "invalid mode "
               +:+ String (Ascii.ascii_of_nat 34)
                     (s +:+ String (Ascii.ascii_of_nat 34) EmptyString)
       ∧ String.substring 14 (String.length s) e = s
       ∧ mentions e s = true).
Proof.
unfold Mode_UnmarshalYAML. rewrite Mode_find_spec. unfold AllModes.
split; [|split; [|split]]; [intros Hin|intros Hout|done|intros Hout].
- by rewrite decide_True.
- by rewrite decide_False.
- rewrite decide_False by done. eexists. split; [done|].
  unfold quoted, dquote. split; [done|].
  change ("invalid mode " +:+ String (Ascii.ascii_of_nat 34) EmptyString
            +:+ s +:+ String (Ascii.ascii_of_nat 34) EmptyString)
    with (("invalid mode " +:+ String (Ascii.ascii_of_nat 34) EmptyString)
            +:+ s +:+ String (Ascii.ascii_of_nat 34) EmptyString).
  split; [|apply mentions_infix].
  apply (substring_infix ("invalid mode " +:+ String (Ascii.ascii_of_nat 34) EmptyString)).
Qed.
End Mode_facts.

(** C6 at the name [lint] and at a name that is none of the modes. *)
Lemma Mode_UnmarshalYAML_closed_witness :
  checks.Mode_UnmarshalYAML "" (Decoded "lint") = ("lint", None)
  ∧ checks.Mode_UnmarshalYAML "pre-push" (Decoded "post-commit")
    = ("pre-push", Some ("invalid mode " +:+ quoted "post-commit"))
  ∧ ∃ e, (checks.Mode_UnmarshalYAML "pre-push" (Decoded "post-commit")).2 = Some e
      ∧ String.substring 14 11 e = "post-commit".
Proof.
split; [|split].
- destruct (Mode_UnmarshalYAML_closed "" "lint") as (Hin & _). apply Hin. compute_done.
- destruct (Mode_UnmarshalYAML_closed "pre-push" "post-commit") as (_ & Hout & _).
  apply Hout. compute_done.
- destruct (Mode_UnmarshalYAML_closed "pre-push" "post-commit") as (_ & _ & _ & Hout).
  destruct Hout as (e & He & _ & Hsub & _); [compute_done|]. by exists e.
Defined.

(** ** [Config.EnabledChecks] *)
Section EnabledChecks_facts.
Import checks.
Context {check : Type}.
Context (range_order : nat → gmap string (list check) → list (string * list check)).
Implicit Types (c : Config check) (modes : list Mode) (out : list check).

Local Abbreviation EnabledChecks := (EnabledChecks range_order).
Local Abbreviation EnabledChecks_loop := (EnabledChecks_loop range_order).

(** What the [i]-th iteration of the outer loop appends for [mode]. *)
Local Abbreviation visited c i mode :=
  (concat ((range_order i (settings_Checks (Modes_at c mode))).*2)).

Lemma append_all_concat out (entries : list (string * list check)) :
  append_all out entries = out ++ concat (entries.*2).
Proof.
  unfold append_all. revert out.
  induction entries as [|[k l] entries IH]; intros out; simpl.
  - by rewrite (right_id_L [] (++)).
  - by rewrite IH, (assoc_L (++)).
Qed.

Lemma budget_step (d max : Z) : (if d >? max then d else max) = Z.max max d.
Proof. destruct (Z.gtb_spec d max); lia. Qed.

(** The loop, as one pass over the requested modes. *)
Lemma EnabledChecks_loop_spec c i modes out max :
  EnabledChecks_loop c i modes out max
  = (out ++ concat (imap (λ j mode, visited c (i + j)%nat mode) modes),
     foldl Z.max max (budgets c modes)).
Proof.
  revert i out max. induction modes as [|mode modes IH]; intros i out max; simpl.
  - by rewrite (right_id_L [] (++)).
  - rewrite IH, append_all_concat, budget_step, <- (assoc_L (++)).
    rewrite Nat.add_0_r.
    rewrite (imap_ext (λ j mode, visited c (S i + j)%nat mode)
               ((λ j mode, visited c (i + j)%nat mode) ∘ S) modes); [done|].
    intros j m _. simpl. by rewrite Nat.add_succ_r.
Qed.

Lemma EnabledChecks_spec c modes :
  EnabledChecks c modes
  = (concat (imap (λ i mode, visited c i mode) modes), foldl Z.max 0 (budgets c modes)).
Proof. unfold checks.EnabledChecks. by rewrite EnabledChecks_loop_spec. Qed.

Lemma foldl_max_bounds (l : list Z) (m : Z) :
  m ≤ foldl Z.max m l
  ∧ (∀ b, b ∈ l → b ≤ foldl Z.max m l)
  ∧ (foldl Z.max m l = m ∨ foldl Z.max m l ∈ l).
Proof.
  revert m. induction l as [|x l IH]; intros m; simpl.
  - split; [lia|]. split; [|by left]. intros b Hb. by apply elem_of_nil in Hb.
  - destruct (IH (Z.max m x)) as (Hle & Hall & Hin). split; [lia|]. split.
    + intros b [->|Hb]%elem_of_cons; [lia|by apply Hall].
    + destruct Hin as [->|Hin]; [|right; by right].
      destruct (Z.max_spec m x) as [[_ ->]|[_ ->]]; [right; left|by left].
Qed.

Lemma max_of_greatest (l : list Z) (r : Z) :
  r ∈ l → (∀ b, b ∈ l → b ≤ r) → max_of l = Some r.
Proof.
  revert r. induction l as [|x l IH]; intros r Hin Hall; [by apply elem_of_nil in Hin|].
  simpl. f_equal. destruct l as [|y l].
  - apply list_elem_of_singleton in Hin. by subst.
  - apply elem_of_cons in Hin as [->|Hin].
    + destruct (max_of (y :: l)) as [m|] eqn:Hm; [|done].
      assert (m ∈ y :: l) as Hmin.
      { clear -Hm. revert m Hm. induction (y :: l) as [|z l' IH']; intros m Hm; [done|].
        simpl in Hm. destruct (max_of l') as [m'|] eqn:Hm'; simplify_eq.
        - destruct (Z.max_spec z m') as [[_ ->]|[_ ->]]; [right; by apply IH'|left].
        - left. }
      assert (m ≤ x) by (apply Hall; by right). lia.
    + rewrite (IH r Hin); [|intros b Hb; apply Hall; by right].
      assert (x ≤ r) by (apply Hall; left). lia.
Qed.

(** C2, as the code has it: the effective max-duration is the greatest of
    0 and the budgets of the requested modes (a requested mode without an
    entry counts as 0).  It is never negative, it bounds every requested
    budget, and it is 0 or one of the requested budgets, so not their sum;
    it is the maximum of the requested budgets as soon as one of them is
    not negative. *)
Theorem EnabledChecks_max_duration c modes :
  let r := (EnabledChecks c modes).2 in
  r = foldl Z.max 0 (budgets c modes)
  ∧ 0 ≤ r
  ∧ (∀ b, b ∈ budgets c modes → b ≤ r)
  ∧ (r = 0 ∨ r ∈ budgets c modes)
  ∧ ((∃ b, b ∈ budgets c modes ∧ 0 ≤ b) → max_of (budgets c modes) = Some r).
Proof.
  intros r. unfold r. rewrite EnabledChecks_spec. simpl.
  destruct (foldl_max_bounds (budgets c modes) 0) as (Hle & Hall & Hin).
  split; [done|]. split; [done|]. split; [done|]. split; [done|].
  intros (b & Hb & Hpos). apply max_of_greatest; [|done].
  destruct Hin as [Hz|Hin]; [|done].
  assert (b = 0) as -> by (specialize (Hall b Hb); lia). by rewrite Hz.
Qed.

Section ranged.
(** [range] visits every entry of the map once. *)
Hypothesis range_order_perm : ∀ i m, range_order i m ≡ₚ map_to_list m.

Lemma visited_declared c i mode : visited c i mode ≡ₚ declared c mode.
Proof. unfold declared. by rewrite range_order_perm. Qed.

Lemma EnabledChecks_declared c modes :
  (EnabledChecks c modes).1 ≡ₚ modes ≫= declared c.
Proof.
  rewrite EnabledChecks_spec. simpl.
  assert (∀ k, concat (imap (λ j mode, visited c (k + j)%nat mode) modes)
               ≡ₚ modes ≫= declared c) as H.
  { induction modes as [|mode modes IH]; intros k; [done|].
    rewrite imap_cons, bind_cons. simpl. rewrite visited_declared.
    apply Permutation_app_head. rewrite <- (IH (S k)).
    rewrite (imap_ext (λ j mode, visited c (S k + j)%nat mode)
               ((λ j mode, visited c (k + j)%nat mode) ∘ S) modes); [done|].
    intros j m _. simpl. by rewrite Nat.add_succ_r. }
  exact (H 0%nat).
Qed.

(** C3, as the code has it: the sequence is made of one block per
    requested mode, in the order the modes are requested; the block of a
    mode is made of the instance lists declared under it, each list whole
    and in its own order, one list after the other in the order in which
    [range] visits the mode's [Checks] map.  Nothing is dropped or
    merged: the sequence has every declared instance once for every
    requested mode that declares it. *)
Theorem EnabledChecks_sequence c modes :
  (∃ blocks,
     (EnabledChecks c modes).1 = concat blocks
     ∧ Forall2 (λ mode block,
          ∃ entries, entries ≡ₚ map_to_list (settings_Checks (Modes_at c mode))
                     ∧ block = concat (entries.*2)) modes blocks)
  ∧ (EnabledChecks c modes).1 ≡ₚ modes ≫= declared c
  ∧ length (EnabledChecks c modes).1 = sum_list ((λ mode, length (declared c mode)) <$> modes).
Proof.
  split; [|split].
  - exists (imap (λ i mode, visited c i mode) modes). split; [by rewrite EnabledChecks_spec|].
    assert (∀ k, Forall2 (λ mode block,
              ∃ entries, entries ≡ₚ map_to_list (settings_Checks (Modes_at c mode))
                         ∧ block = concat (entries.*2))
              modes (imap (λ j mode, visited c (k + j)%nat mode) modes)) as H.
    { induction modes as [|mode modes IH]; intros k; [constructor|].
      rewrite imap_cons. constructor.
      - eexists. split; [apply range_order_perm|done].
      - erewrite imap_ext; [apply (IH (S k))|]. intros j m _. simpl.
        by rewrite Nat.add_succ_r. }
    exact (H 0%nat).
  - apply EnabledChecks_declared.
  - rewrite EnabledChecks_declared. induction modes as [|mode modes IH]; [done|].
    rewrite bind_cons, length_app, IH. done.
Qed.

(** C10: requesting no mode, or only modes without an entry in
    [c.Modes], yields no check and the max-duration 0; the function is
    total, so it returns on every request. *)
Theorem EnabledChecks_no_entry c modes :
  (∀ mode, mode ∈ modes → Modes c !! mode = None) →
  EnabledChecks c modes = ([], 0).
Proof.
  intros Hnone. rewrite EnabledChecks_spec.
  assert (∀ mode, mode ∈ modes → Modes_at c mode = Settings_zero) as Hzero.
  { intros mode Hm. unfold Modes_at. by rewrite (Hnone mode Hm). }
  f_equal.
  - apply Permutation_nil_r. change (?l ≡ₚ []) with (l ≡ₚ []).
    pose proof (EnabledChecks_declared c modes) as Hp.
    rewrite EnabledChecks_spec in Hp. simpl in Hp. rewrite Hp.
    clear Hp. induction modes as [|mode modes IH]; [done|].
    rewrite bind_cons. unfold declared at 1. rewrite Hzero by left. simpl.
    rewrite map_to_list_empty. simpl. apply IH.
    + intros m Hm. apply Hnone. by right.
    + intros m Hm. apply Hzero. by right.
  - assert (budgets c modes = replicate (length modes) 0) as ->.
    { unfold budgets. clear Hnone. induction modes as [|mode modes IH]; [done|].
      simpl. rewrite Hzero by left. simpl. f_equal. apply IH.
      intros m Hm. apply Hzero. by right. }
    induction (length modes) as [|n IH]; [done|]. simpl. apply IH.
Qed.
End ranged.
End EnabledChecks_facts.

(** C2 as stated fails on a budget below zero: with [max_duration: -5] for
    pre-commit, the maximum of the budgets of the requested modes is -5,
    while the effective max-duration is 0. *)
Lemma EnabledChecks_max_duration_negative_budget :
  let c : checks.Config checks.Check :=
    {| checks.MinVersion := "";
       checks.Modes := {[ checks.PreCommit :=
                            {| checks.settings_Checks := ∅; checks.MaxDuration := -5 |} ]};
       checks.IgnorePatterns := [] |} in
  let r := (checks.EnabledChecks (λ _ m, map_to_list m) c [checks.PreCommit]).2 in
  checks.budgets c [checks.PreCommit] = [-5]
  ∧ r = 0
  ∧ checks.max_of (checks.budgets c [checks.PreCommit]) ≠ Some r.
Proof. intros c r. split; [|split]; by vm_compute. Qed.

(** C2 on the default configuration, pre-commit and pre-push requested:
    15, the greater of 5 and 15. *)
Lemma EnabledChecks_max_duration_witness :
  checks.max_of (checks.budgets (checks.New "v") [checks.PreCommit; checks.PrePush])
  = Some (checks.EnabledChecks (λ _ m, map_to_list m) (checks.New "v")
            [checks.PreCommit; checks.PrePush]).2
  ∧ (checks.EnabledChecks (λ _ m, map_to_list m) (checks.New "v")
       [checks.PreCommit; checks.PrePush]).2 = 15.
Proof.
  split; [|by vm_compute].
  apply (EnabledChecks_max_duration (λ _ m, map_to_list m) (checks.New "v")
           [checks.PreCommit; checks.PrePush]).
  exists 5. split; [compute_done|lia].
Defined.

(** C3 as stated fails: no order fixed by the configuration is the order of
    the returned sequence.  On the default configuration, pre-commit
    requested, two orders in which [range] may visit the [Checks] map give two
    different sequences. *)
Lemma EnabledChecks_sequence_not_determined :
  ¬ ∃ expected : list checks.Check,
      ∀ range_order : nat → gmap string (list checks.Check) → list (string * list checks.Check),
        (∀ i m, range_order i m ≡ₚ map_to_list m) →
        (checks.EnabledChecks range_order (checks.New "") [checks.PreCommit]).1 = expected.
Proof.
  intros (expected & H).
  pose proof (H (λ _ m, map_to_list m) (λ _ _, reflexivity _)) as H1.
  pose proof (H (λ _ m, reverse (map_to_list m)) (λ _ m, reverse_Permutation _)) as H2.
  rewrite <- H2 in H1. vm_compute in H1. discriminate H1.
Qed.

(** C3 on a configuration in which pre-commit and pre-push declare the same
    instance: it is returned twice. *)
Lemma EnabledChecks_sequence_witness :
  let c : checks.Config checks.Check :=
    {| checks.MinVersion := "";
       checks.Modes :=
         {[ checks.PreCommit :=
              {| checks.settings_Checks := {[ "gofmt" := [checks.gofmt] ]};
                 checks.MaxDuration := 5 |};
            checks.PrePush :=
              {| checks.settings_Checks := {[ "gofmt" := [checks.gofmt] ]};
                 checks.MaxDuration := 15 |} ]};
       checks.IgnorePatterns := [] |} in
  (checks.EnabledChecks (λ _ m, map_to_list m) c [checks.PreCommit; checks.PrePush]).1
  ≡ₚ [checks.gofmt; checks.gofmt].
Proof.
  intros c.
  destruct (EnabledChecks_sequence (λ _ m, map_to_list m) (λ _ _, reflexivity _) c
              [checks.PreCommit; checks.PrePush]) as (_ & Hp & _).
  rewrite Hp. by vm_compute.
Defined.

(** C10 on the default configuration, two names requested that it has no
    entry for. *)
Lemma EnabledChecks_no_entry_witness :
  checks.EnabledChecks (λ _ m, map_to_list m) (checks.New "v") ["nightly"; "weekly"]
  = ([], 0).
Proof.
  apply (EnabledChecks_no_entry (λ _ m, map_to_list m) (λ _ _, reflexivity _)).
  intros mode [->|[->|[]%elem_of_nil]%elem_of_cons]%elem_of_cons; by vm_compute.
Defined.

(** ** [New]: the default configuration *)
Section New_facts.
Import checks.
Context (range_order : nat → gmap string (list Check) → list (string * list Check)).
Hypothesis range_order_perm : ∀ i m, range_order i m ≡ₚ map_to_list m.
Context (v : string).

Local Abbreviation EnabledChecks := (EnabledChecks range_order).
Local Abbreviation coverage upload :=
  (Coverage upload {| MinCoverage := 50; MaxCoverage := 100 |}
                   {| MinCoverage := 0; MaxCoverage := 0 |} ∅).

(** C4: on the default configuration, pre-commit alone gives the three
    checks build, gofmt and test -short and the max-duration 5; pre-commit
    and pre-push together give six checks and the max-duration 15. *)
Theorem New_EnabledChecks :
  let one := EnabledChecks (New v) [PreCommit] in
  let two := EnabledChecks (New v) [PreCommit; PrePush] in
  length one.1 = 3%nat
  ∧ one.1 ≡ₚ [build []; gofmt; test ["-short"]]
  ∧ one.2 = 5
  ∧ length two.1 = 6%nat
  ∧ two.1 ≡ₚ [build []; gofmt; test ["-short"];
               goimports; coverage false; test ["-v"; "-race"]]
  ∧ two.2 = 15.
Proof.
  intros one two.
  assert (one.1 ≡ₚ [build []; gofmt; test ["-short"]]) as H1.
  { unfold one. rewrite (EnabledChecks_declared _ range_order_perm).
    vm_compute. solve_Permutation. }
  assert (two.1 ≡ₚ [build []; gofmt; test ["-short"];
                     goimports; coverage false; test ["-v"; "-race"]]) as H2.
  { unfold two. rewrite (EnabledChecks_declared _ range_order_perm).
    vm_compute. solve_Permutation. }
  split; [by rewrite H1|]. split; [done|]. split.
  { unfold one. rewrite EnabledChecks_spec. by vm_compute. }
  split; [by rewrite H2|]. split; [done|].
  unfold two. rewrite EnabledChecks_spec. by vm_compute.
Qed.
End New_facts.

(** C4 under one admissible order of [range]. *)
Lemma New_EnabledChecks_witness :
  length (checks.EnabledChecks (λ _ m, map_to_list m) (checks.New "0.4.7")
            [checks.PreCommit]).1 = 3%nat
  ∧ (checks.EnabledChecks (λ _ m, map_to_list m) (checks.New "0.4.7")
       [checks.PreCommit; checks.PrePush]).2 = 15.
Proof.
  destruct (New_EnabledChecks (λ _ m, map_to_list m) (λ _ _, reflexivity _) "0.4.7")
    as (Hlen & _ & _ & _ & _ & Hmax).
  split; [exact Hlen|exact Hmax].
Defined.

(** ** [New]: the modes of the default configuration *)
Section New_modes.
Import checks.
Context (range_order : nat → gmap string (list Check) → list (string * list Check)).
Hypothesis range_order_perm : ∀ i m, range_order i m ≡ₚ map_to_list m.
Context (v : string).

Local Abbreviation checks_of mode := (settings_Checks (Modes_at (New v) mode)).

Lemma New_other_mode (mode : Mode) : mode ∉ AllModes → declared (New v) mode = [].
Proof.
intros Hout. unfold declared, Modes_at, New; simpl.
rewrite !lookup_insert_ne, lookup_singleton_ne; [done|..];
  intros <-; apply Hout; compute_done.
Qed.

Lemma New_lint_apart (mode : Mode) (x : Check) :
  mode ≠ Lint → x ∈ declared (New v) Lint → x ∉ declared (New v) mode.
Proof.
intros Hmode Hx. destruct (decide (mode ∈ AllModes)) as [Hin|Hout].
- vm_compute in Hx. unfold AllModes in Hin.
  repeat (apply elem_of_cons in Hin as [->|Hin]); [| | |done|by apply elem_of_nil in Hin];
    repeat (apply elem_of_cons in Hx as [->|Hx]); try (by apply elem_of_nil in Hx);
    compute_done.
- rewrite (New_other_mode mode Hout). apply not_elem_of_nil.
Qed.

(** C5, as the code has it: continuous-integration declares the check types
    of pre-push and, besides, build and gofmt; its instances are those of
    pre-push, except that its coverage check uploads to coveralls.io
    ([UseCoveralls: true], [false] under pre-push), plus a build and a gofmt
    check; its budget is 120 seconds.  The checks of lint are declared
    under no other mode, so requesting modes other than lint never yields
    one of them. *)
Theorem New_continuous_integration_and_lint :
  dom (checks_of ContinuousIntegration) = dom (checks_of PrePush) ∪ {[ "build"; "gofmt" ]}
  ∧ declared (New v) ContinuousIntegration
    ≡ₚ (with_upload <$> declared (New v) PrePush) ++ [build []; gofmt]
  ∧ MaxDuration (Modes_at (New v) ContinuousIntegration) = 120
  ∧ (∀ mode, mode ≠ Lint → dom (checks_of Lint) ## dom (checks_of mode))
  ∧ (∀ mode x, mode ≠ Lint → x ∈ declared (New v) Lint → x ∉ declared (New v) mode)
  ∧ (∀ modes x, Lint ∉ modes →
       x ∈ (EnabledChecks range_order (New v) modes).1 → x ∉ declared (New v) Lint).
Proof.
split; [by vm_compute|]. split; [vm_compute; solve_Permutation|]. split; [done|].
split; [|split].
- intros mode Hmode. destruct (decide (mode ∈ AllModes)) as [Hin|Hout].
  + unfold AllModes in Hin.
    repeat (apply elem_of_cons in Hin as [->|Hin]); [| | |done|by apply elem_of_nil in Hin];
      compute_done.
  + unfold Modes_at, New; simpl.
    rewrite !(lookup_insert_ne _ _ mode), (lookup_singleton_ne _ mode);
      [|intros <-; apply Hout; compute_done..].
    simpl. rewrite dom_empty_L. apply disjoint_empty_r.
- apply New_lint_apart.
- intros modes x Hlint Hx Hx'.
  rewrite (EnabledChecks_declared _ range_order_perm) in Hx.
  apply list_elem_of_bind in Hx as (mode & Hxm & Hmode).
  apply (New_lint_apart mode x); [|done..]. intros ->. contradiction.
Qed.
End New_modes.

(** C5 as stated fails on the instances: the coverage check declared under
    continuous-integration uploads to coveralls.io, the one under pre-push
    does not, so the checks of continuous-integration are not those of
    pre-push with a build and a gofmt check added. *)
Lemma New_continuous_integration_not_pre_push_plus :
  ¬ (checks.declared (checks.New "") checks.ContinuousIntegration
     ≡ₚ checks.declared (checks.New "") checks.PrePush ++ [checks.build []; checks.gofmt]).
Proof.
intros Hp.
assert (checks.Coverage true (checks.mkCoverageSettings 50 100) (checks.mkCoverageSettings 0 0) ∅
        ∈ checks.declared (checks.New "") checks.ContinuousIntegration) as Hin by compute_done.
rewrite Hp in Hin. revert Hin. compute_done.
Qed.

(** C5 under one admissible order of [range]: pre-commit, pre-push and
    continuous-integration together yield no vet check. *)
Lemma New_continuous_integration_and_lint_witness :
  checks.govet [" composite literal uses unkeyed fields"]
  ∉ (checks.EnabledChecks (λ _ m, map_to_list m) (checks.New "v")
       [checks.PreCommit; checks.PrePush; checks.ContinuousIntegration]).1.
Proof.
intros Hx.
destruct (New_continuous_integration_and_lint (λ _ m, map_to_list m) (λ _ _, reflexivity _) "v")
  as (_ & _ & _ & _ & _ & Hlint).
apply (Hlint [checks.PreCommit; checks.PrePush; checks.ContinuousIntegration] _) in Hx.
- apply Hx. compute_done.
- compute_done.
Defined.

(** ** [Checks.UnmarshalYAML] *)
Section unmarshal_facts.
Import checks.
Context {check raw bytes : Type}.
Context (KnownChecks : gmap string (unit → check)).
Context (yaml_Marshal : raw → decoded bytes).
Context (yaml_Unmarshal : bytes → check → decoded check).
Context (range_order : nat → gmap string (list raw) → list (string * list raw)).
Implicit Types (st : decoder check) (blocks : list raw) (entries : list (string * list raw)).

Local Abbreviation decode_blocks := (decode_blocks yaml_Marshal yaml_Unmarshal).
Local Abbreviation decode_entries := (decode_entries KnownChecks yaml_Marshal yaml_Unmarshal).
Local Abbreviation decode_block := (decode_block yaml_Marshal yaml_Unmarshal).
Local Abbreviation Checks_UnmarshalYAML :=
  (Checks_UnmarshalYAML KnownChecks yaml_Marshal yaml_Unmarshal range_order).
Local Abbreviation unknown name := ("unknown check " +:+ quoted name).

(** An entry whose type is registered and whose blocks all decode. *)
Local Abbreviation decodes entry :=
  (∃ f, KnownChecks !! entry.1 = Some f
        ∧ ∀ block, block ∈ entry.2 → ∃ chk, decode_block f block = Decoded chk).

Lemma decode_blocks_error name f blocks st st' e :
  decode_blocks name f blocks st = (st', Some e) →
  ∃ block, block ∈ blocks ∧ decode_block f block = DecodeError e.
Proof.
revert st. induction blocks as [|block blocks IH]; intros st; simpl; [done|].
unfold checks.decode_block.
destruct (yaml_Marshal block) as [b|e'] eqn:Hm.
- destruct (yaml_Unmarshal b (f ())) as [chk|e'] eqn:Hu.
  + intros (block' & Hin & Hb)%IH. exists block'. split; [by right|done].
  + intros [= _ <-]. exists block. split; [left|]. by rewrite Hm.
- intros [= _ <-]. exists block. split; [left|]. by rewrite Hm.
Qed.

Lemma decode_blocks_fine name f blocks st :
  (∀ block, block ∈ blocks → ∃ chk, decode_block f block = Decoded chk) →
  ∃ st', decode_blocks name f blocks st = (st', None).
Proof.
revert st. induction blocks as [|block blocks IH]; intros st Hall; simpl; [by eexists|].
destruct (Hall block) as [chk Hchk]; [left|]. unfold checks.decode_block in Hchk.
destruct (yaml_Marshal block) as [b|e']; [|done]. rewrite Hchk.
apply IH. intros block' Hin. apply Hall. by right.
Qed.

(** A successful inner loop appends one decoded instance per block, in the
    order of the blocks, under the type name; it calls the factory once per
    block and touches no other type name. *)
Lemma decode_blocks_success name f blocks st st' :
  decode_blocks name f blocks st = (st', None) →
  ∃ made,
    Forall2 (λ block chk, decode_block f block = Decoded chk) blocks made
    ∧ default [] (dec_checks st' !! name) = default [] (dec_checks st !! name) ++ made
    ∧ (∀ k, k ≠ name → dec_checks st' !! k = dec_checks st !! k)
    ∧ dec_made st' = dec_made st ++ replicate (length blocks) name.
Proof.
revert st. induction blocks as [|block blocks IH]; intros st; simpl.
- intros [= <-]. exists []. rewrite !(right_id_L [] (++)). by repeat split.
- destruct (yaml_Marshal block) as [b|e'] eqn:Hm; [|done].
  destruct (yaml_Unmarshal b (f ())) as [chk|e'] eqn:Hu; [|done].
  intros (made & Hmade & Hname & Hother & Hcalls)%IH. simpl in *.
  exists (chk :: made). split; [|split; [|split]].
  + constructor; [|done]. unfold checks.decode_block. by rewrite Hm.
  + rewrite Hname, lookup_insert_eq. simpl. by rewrite <- (assoc_L (++)).
  + intros k Hk. rewrite (Hother k Hk). by rewrite lookup_insert_ne.
  + rewrite Hcalls. by rewrite <- (assoc_L (++)).
Qed.

(** An error of the outer loop is the error of the first entry that does
    not decode: an unregistered type name, or a block that does not decode. *)
Lemma decode_entries_error entries st st' e :
  decode_entries entries st = (st', Some e) →
  ∃ name blocks, (name, blocks) ∈ entries
    ∧ ((KnownChecks !! name = None ∧ e = unknown name)
       ∨ ∃ f block, KnownChecks !! name = Some f ∧ block ∈ blocks
                    ∧ decode_block f block = DecodeError e).
Proof.
revert st. induction entries as [|[name blocks] entries IH]; intros st; simpl; [done|].
destruct (KnownChecks !! name) as [f|] eqn:Hf.
- destruct (decode_blocks name f blocks st) as [st1 [e1|]] eqn:Hb.
  + intros [= _ <-]. apply decode_blocks_error in Hb as (block & Hin & Hblock).
    exists name, blocks. split; [left|]. right. by exists f, block.
  + intros (name' & blocks' & Hin & H)%IH. exists name', blocks'. split; [by right|done].
- intros [= _ <-]. exists name, blocks. split; [left|]. by left.
Qed.

Lemma decode_entries_unknown_fails entries st name blocks :
  (name, blocks) ∈ entries → KnownChecks !! name = None →
  (decode_entries entries st).2 ≠ None.
Proof.
revert st. induction entries as [|[name' blocks'] entries IH]; intros st Hin Hnone; simpl.
- by apply elem_of_nil in Hin.
- destruct (KnownChecks !! name') as [f|] eqn:Hf; [|done].
  destruct (decode_blocks name' f blocks' st) as [st1 [e1|]]; [done|].
  apply IH; [|done]. apply elem_of_cons in Hin as [[= -> ->]|Hin]; [congruence|done].
Qed.

Lemma decode_entries_first_unknown pre name blocks post st :
  Forall (λ entry, decodes entry) pre → KnownChecks !! name = None →
  (decode_entries (pre ++ (name, blocks) :: post) st).2 = Some (unknown name).
Proof.
intros Hpre Hnone. revert st.
induction Hpre as [|[name' blocks'] pre (f & Hf & Hblocks) _ IH]; intros st; simpl.
- by rewrite Hnone.
- simpl in Hf. rewrite Hf.
  destruct (decode_blocks_fine name' f blocks' st Hblocks) as [st1 ->]. apply IH.
Qed.

(** A successful outer loop over entries with distinct type names, started
    on checks that hold none of these names. *)
Lemma decode_entries_success entries st st' :
  decode_entries entries st = (st', None) →
  NoDup (entries.*1) →
  (∀ name, name ∈ entries.*1 → dec_checks st !! name = None) →
  (∀ name blocks, (name, blocks) ∈ entries →
     ∃ f made, KnownChecks !! name = Some f
       ∧ Forall2 (λ block chk, decode_block f block = Decoded chk) blocks made
       ∧ default [] (dec_checks st' !! name) = made)
  ∧ (∀ k, k ∉ entries.*1 → dec_checks st' !! k = dec_checks st !! k)
  ∧ dec_made st' = dec_made st ++ (entries ≫= factory_calls).
Proof.
revert st. induction entries as [|[name blocks] entries IH]; intros st; simpl.
- intros [= <-] _ _. split; [|split; [done|by rewrite (right_id_L [] (++))]].
  intros name blocks Hin. by apply elem_of_nil in Hin.
- destruct (KnownChecks !! name) as [f|] eqn:Hf; [|done].
  destruct (decode_blocks name f blocks st) as [st1 [e1|]] eqn:Hb; [done|].
  intros Hrest [Hfresh Hnodup]%NoDup_cons Hnew.
  apply decode_blocks_success in Hb as (made & Hmade & Hname & Hother & Hcalls).
  destruct (IH st1 Hrest Hnodup) as (Hent & Hkeep & Hlog).
  { intros k Hk. rewrite Hother; [apply Hnew; by right|]. by intros ->. }
  split; [|split].
  + intros name' blocks' [[= -> ->]|Hin]%elem_of_cons.
    * exists f, made. split; [done|]. split; [done|].
      rewrite (Hkeep name Hfresh), Hname, (Hnew name); [done|left].
    * by apply Hent.
  + intros k [Hk1 Hk2]%not_elem_of_cons. rewrite (Hkeep k Hk2). by apply Hother.
  + rewrite Hlog, Hcalls. unfold factory_calls at 2. simpl.
    by rewrite <- (assoc_L (++)).
Qed.

(** A successful inner loop has decoded every block. *)
Lemma decode_blocks_decoded name f blocks st st' :
  decode_blocks name f blocks st = (st', None) →
  ∀ block, block ∈ blocks → ∃ chk, decode_block f block = Decoded chk.
Proof.
revert st. induction blocks as [|block blocks IH]; intros st; simpl.
- intros _ b Hin. by apply elem_of_nil in Hin.
- destruct (yaml_Marshal block) as [b|e'] eqn:Hm; [|done].
  destruct (yaml_Unmarshal b (f ())) as [chk|e'] eqn:Hu; [|done].
  intros Hrest b0 [->|Hin]%elem_of_cons.
  + exists chk. unfold checks.decode_block. by rewrite Hm.
  + by eapply IH.
Qed.

(** An error of the inner loop is the error of the first block, in the
    order of the list, that does not decode. *)
Lemma decode_blocks_first_error name f blocks st st' e :
  decode_blocks name f blocks st = (st', Some e) →
  ∃ bpre block bpost, blocks = bpre ++ block :: bpost
    ∧ (∀ b, b ∈ bpre → ∃ chk, decode_block f b = Decoded chk)
    ∧ decode_block f block = DecodeError e.
Proof.
revert st. induction blocks as [|block blocks IH]; intros st; simpl; [done|].
destruct (yaml_Marshal block) as [b|e'] eqn:Hm.
- destruct (yaml_Unmarshal b (f ())) as [chk|e'] eqn:Hu.
  + intros (bpre & block' & bpost & -> & Hpre & Hb)%IH.
    exists (block :: bpre), block', bpost. split; [done|]. split; [|done].
    intros b0 [->|Hin]%elem_of_cons; [|by apply Hpre].
    exists chk. unfold checks.decode_block. by rewrite Hm.
  + intros [= _ <-]. exists [], block, blocks. split; [done|]. split.
    * intros b0 Hin. by apply elem_of_nil in Hin.
    * unfold checks.decode_block. by rewrite Hm.
- intros [= _ <-]. exists [], block, blocks. split; [done|]. split.
  + intros b0 Hin. by apply elem_of_nil in Hin.
  + unfold checks.decode_block. by rewrite Hm.
Qed.

(** An error of the outer loop is the error of the first entry, in the
    order of the list, that does not decode, and within that entry of its
    first block that does not decode. *)
Lemma decode_entries_first_error entries st st' e :
  decode_entries entries st = (st', Some e) →
  ∃ pre name blocks post, entries = pre ++ (name, blocks) :: post
    ∧ Forall (λ entry, decodes entry) pre
    ∧ ((KnownChecks !! name = None ∧ e = unknown name)
       ∨ ∃ f bpre block bpost, KnownChecks !! name = Some f
           ∧ blocks = bpre ++ block :: bpost
           ∧ (∀ b, b ∈ bpre → ∃ chk, decode_block f b = Decoded chk)
           ∧ decode_block f block = DecodeError e).
Proof.
revert st. induction entries as [|[name blocks] entries IH]; intros st; simpl; [done|].
destruct (KnownChecks !! name) as [f|] eqn:Hf.
- destruct (decode_blocks name f blocks st) as [st1 [e1|]] eqn:Hb.
  + intros [= _ <-].
    apply decode_blocks_first_error in Hb as (bpre & block & bpost & -> & Hpre & Hblock).
    exists [], name, (bpre ++ block :: bpost), entries.
    split; [done|]. split; [constructor|]. right. by exists f, bpre, block, bpost.
  + intros (pre & name' & blocks' & post & -> & Hpre & H)%IH.
    exists ((name, blocks) :: pre), name', blocks', post.
    split; [done|]. split; [|done]. constructor; [|done].
    exists f. split; [done|]. simpl. by eapply decode_blocks_decoded.
- intros [= _ <-]. exists [], name, blocks, entries.
  split; [done|]. split; [constructor|]. by left.
Qed.

Section ranged.
(** [range] visits every entry of the map once. *)
Hypothesis range_order_perm : ∀ i m, range_order i m ≡ₚ map_to_list m.

Lemma ranged_entry (encoded : gmap string (list raw)) name blocks :
  (name, blocks) ∈ range_order 0%nat encoded ↔ encoded !! name = Some blocks.
Proof. by rewrite range_order_perm, elem_of_map_to_list. Qed.

Lemma ranged_NoDup (encoded : gmap string (list raw)) :
  NoDup ((range_order 0%nat encoded).*1).
Proof. rewrite range_order_perm. apply NoDup_fst_map_to_list. Qed.

(** C7, as the code has it.  Decoding a checks block that holds a type name
    missing from the registry fails, whatever else the block holds.  The
    error returned is the one of the first entry, in the order of [range],
    that does not decode: every entry [range] yields before it decodes, and
    it is [unknown check "<name>"] when the name of that entry is not
    registered (the name is part of the message), or the error of the first
    block of that entry that does not decode; it names a given unregistered
    name when every other entry decodes.  When decoding succeeds, every type
    name of the block is registered, the checks under a name are the blocks
    under it, in their order, each filled into an instance of its own made
    by the factory of that name, and the factory of a name has been called
    once per block under it. *)
Theorem Checks_UnmarshalYAML_decodes (c : gmap string (list check))
    (encoded : gmap string (list raw)) :
  let res := (Checks_UnmarshalYAML c (Decoded encoded)).1 in
  let err := (Checks_UnmarshalYAML c (Decoded encoded)).2 in
  (∀ name, name ∈ dom encoded → KnownChecks !! name = None → err ≠ None)
  ∧ (∀ e, err = Some e →
       ∃ name blocks, encoded !! name = Some blocks
         ∧ ((KnownChecks !! name = None ∧ e = unknown name)
            ∨ ∃ f block, KnownChecks !! name = Some f ∧ block ∈ blocks
                         ∧ decode_block f block = DecodeError e))
  ∧ (∀ name, name ∈ dom encoded → KnownChecks !! name = None →
       (∀ name' blocks', name' ≠ name → encoded !! name' = Some blocks' →
          decodes (name', blocks')) →
       err = Some (unknown name))
  ∧ (err = None →
       (∀ name blocks, encoded !! name = Some blocks →
          ∃ f made, KnownChecks !! name = Some f
            ∧ Forall2 (λ block chk, decode_block f block = Decoded chk) blocks made
            ∧ default [] (dec_checks res !! name) = made)
       ∧ (∀ name, encoded !! name = None → dec_checks res !! name = None)
       ∧ dec_made res ≡ₚ map_to_list encoded ≫= factory_calls)
  ∧ (∀ e, err = Some e →
       ∃ pre name blocks post,
         range_order 0%nat encoded = pre ++ (name, blocks) :: post
         ∧ Forall (λ entry, decodes entry) pre
         ∧ ((KnownChecks !! name = None
             ∧ e = "unknown check "
                     +:+ String (Ascii.ascii_of_nat 34)
                           (name +:+ String (Ascii.ascii_of_nat 34) EmptyString)
             ∧ String.substring 15 (String.length name) e = name
             ∧ mentions e name = true)
            ∨ ∃ f bpre block bpost, KnownChecks !! name = Some f
                ∧ blocks = bpre ++ block :: bpost
                ∧ (∀ b, b ∈ bpre → ∃ chk, decode_block f b = Decoded chk)
                ∧ decode_block f block = DecodeError e)).
Proof.
intros res err. unfold res, err, checks.Checks_UnmarshalYAML. clear res err.
set (entries := range_order 0%nat encoded).
set (st0 := {| dec_checks := ∅; dec_made := [] |}).
split; [|split; [|split; [|split]]]; cycle 4.
- intros e He. destruct (decode_entries entries st0) as [st' err] eqn:Hd.
  simpl in He. subst err.
  apply decode_entries_first_error in Hd as (pre & name & blocks & post & Hsplit & Hpre & H).
  exists pre, name, blocks, post. split; [done|]. split; [done|].
  destruct H as [[Hnone ->]|H]; [left|by right].
  split; [done|]. unfold quoted, dquote. split; [done|].
  change ("unknown check " +:+ String (Ascii.ascii_of_nat 34) EmptyString
            +:+ name +:+ String (Ascii.ascii_of_nat 34) EmptyString)
    with (("unknown check " +:+ String (Ascii.ascii_of_nat 34) EmptyString)
            +:+ name +:+ String (Ascii.ascii_of_nat 34) EmptyString).
  split; [|apply mentions_infix].
  apply (substring_infix ("unknown check " +:+ String (Ascii.ascii_of_nat 34) EmptyString)).
- intros name [blocks Hb]%elem_of_dom Hnone.
  apply (decode_entries_unknown_fails entries st0 name blocks); [|done].
  by apply ranged_entry.
- intros e He. destruct (decode_entries entries st0) as [st' err] eqn:Hd.
  simpl in He. subst err.
  apply decode_entries_error in Hd as (name & blocks & Hin & H).
  exists name, blocks. split; [by apply ranged_entry|done].
- intros name [blocks Hb]%elem_of_dom Hnone Hothers.
  apply ranged_entry in Hb. fold entries in Hb.
  destruct (list_elem_of_split _ _ Hb) as (pre & post & Hsplit).
  rewrite Hsplit. apply decode_entries_first_unknown; [|done].
  apply Forall_forall. intros [name' blocks'] Hin. apply Hothers.
  + intros ->. pose proof (ranged_NoDup encoded) as Hnd. fold entries in Hnd.
    rewrite Hsplit, fmap_app, fmap_cons in Hnd. simpl in Hnd.
    apply NoDup_app in Hnd as (_ & Hnd & _). apply (Hnd name); [|left].
    apply list_elem_of_fmap. by exists (name, blocks').
  + apply ranged_entry. fold entries. rewrite Hsplit. apply elem_of_app. by left.
- intros Herr. destruct (decode_entries entries st0) as [st' err] eqn:Hd.
  simpl in Herr. subst err. simpl.
  destruct (decode_entries_success entries st0 st' Hd) as (Hent & Hkeep & Hlog).
  { apply ranged_NoDup. }
  { intros name _. apply lookup_empty. }
  split; [|split].
  + intros name blocks Hb. apply Hent. by apply ranged_entry.
  + intros name Hnone. rewrite Hkeep; [apply lookup_empty|].
    intros ([name' blocks] & -> & Hin)%list_elem_of_fmap. simpl in Hnone.
    apply ranged_entry in Hin. congruence.
  + rewrite Hlog. simpl. unfold entries. by rewrite range_order_perm.
Qed.
End ranged.
End unmarshal_facts.

(** C7 as stated fails in two ways.  When the block holds two type names
    that are not registered, the error names the one [range] comes to first
    and has no trace of the other.  When [range] comes to a registered name
    with a block that does not decode before it comes to the unregistered
    name, the error is the one of that block and names no type at all. *)
Lemma Checks_UnmarshalYAML_names_first_unknown_only :
  let KnownChecks : gmap string (unit → checks.Check) := {[ "gofmt" := λ _, checks.gofmt ]} in
  let yaml_Marshal := λ block : list string, Decoded block in
  let yaml_Unmarshal := λ (fields : list string) (chk : checks.Check),
    match fields with [] => Decoded chk | _ => DecodeError "yaml: unknown field" end in
  let encoded : gmap string (list (list string)) := {[ "gofmtt" := []; "golintt" := [] ]} in
  let err := (checks.Checks_UnmarshalYAML KnownChecks yaml_Marshal yaml_Unmarshal
                (λ _ m, map_to_list m) ∅ (Decoded encoded)).2 in
  let encoded' : gmap string (list (list string)) :=
    {[ "gofmt" := [["tabs"]]; "golintt" := [] ]} in
  let err' := (checks.Checks_UnmarshalYAML KnownChecks yaml_Marshal yaml_Unmarshal
                 (λ _ m, map_to_list m) ∅ (Decoded encoded')).2 in
  ¬ (∀ name, name ∈ dom encoded → KnownChecks !! name = None →
       ∃ e, err = Some e ∧ checks.mentions e name = true)
  ∧ ¬ (∀ name, name ∈ dom encoded' → KnownChecks !! name = None →
         ∃ e, err' = Some e ∧ checks.mentions e name = true).
Proof.
intros KnownChecks yaml_Marshal yaml_Unmarshal encoded err encoded' err'. split; intros H.
- destruct (H "golintt") as (e & He & Hname); [compute_done|by vm_compute|].
  vm_compute in He. injection He as <-. vm_compute in Hname. discriminate Hname.
- destruct (H "golintt") as (e & He & Hname); [compute_done|by vm_compute|].
  vm_compute in He. injection He as <-. vm_compute in Hname. discriminate Hname.
Qed.

(** C7 on a block with a gofmt check and a type name that is not
    registered: the error names that type. *)
Lemma Checks_UnmarshalYAML_decodes_witness :
  let KnownChecks : gmap string (unit → checks.Check) := {[ "gofmt" := λ _, checks.gofmt ]} in
  let yaml_Marshal := λ block : list string, Decoded block in
  let yaml_Unmarshal := λ (fields : list string) (chk : checks.Check),
    match fields with [] => Decoded chk | _ => DecodeError "yaml: unknown field" end in
  let encoded : gmap string (list (list string)) := {[ "gofmt" := [[]]; "golintt" := [] ]} in
  (checks.Checks_UnmarshalYAML KnownChecks yaml_Marshal yaml_Unmarshal
     (λ _ m, map_to_list m) ∅ (Decoded encoded)).2
  = Some ("unknown check " +:+ quoted "golintt").
Proof.
intros KnownChecks yaml_Marshal yaml_Unmarshal encoded.
destruct (Checks_UnmarshalYAML_decodes KnownChecks yaml_Marshal yaml_Unmarshal
            (λ _ m, map_to_list m) (λ _ _, reflexivity _) ∅ encoded)
  as (_ & _ & Hone & _).
apply Hone; [compute_done|by vm_compute|].
intros name' blocks' Hne Hl. unfold encoded in Hl.
apply lookup_insert_Some in Hl as [[<- <-]|[_ Hl]].
- exists (λ _, checks.gofmt). split; [by vm_compute|].
  intros block ->%list_elem_of_singleton. by exists checks.gofmt.
- apply lookup_singleton_Some in Hl as [<- _]. done.
Defined.

(** The error made for an unregistered type name has the name in it. *)
Lemma unknown_check_mentions (name : string) :
  checks.mentions ("unknown check " +:+ quoted name) name = true.
Proof.
unfold checks.mentions.
destruct (String.index 0 name ("unknown check " +:+ quoted name)) as [k|] eqn:Hi; [done|].
exfalso. destruct name as [|a name].
- by vm_compute in Hi.
- apply (String.index_correct3 0 15) in Hi; [|done|lia]. apply Hi.
  unfold quoted, dquote. simpl.
  f_equal. clear Hi. induction name as [|b name IH]; simpl; [done|]. by rewrite IH.
Qed.

(** [installPrereq] on two checks that declare the same absent linter and a
    third whose tool is there: the locator of the linter is reported, once,
    and the locator of the tool that is there is not. *)
Lemma installPrereq_with_room_witness :
  let golint := definitions.mkCheckPrerequisite ["golint"; "-h"] 2 "github.com/golang/lint/golint" in
  let cover := definitions.mkCheckPrerequisite ["go"; "tool"; "cover"; "-h"] 1
                 "golang.org/x/tools/cmd/cover" in
  let GetPrerequisites := λ check : list definitions.CheckPrerequisite, check in
  let Capture := λ (_ : string) (_ args : list string),
    match args with
    | "go" :: _ => definitions.mkCaptured "usage: go tool cover" 1 None
    | _ => definitions.mkCaptured "" (-1) (Some "executable file not found")
    end in
  let capture := λ (w : unit) (_ : list string), (definitions.mkCaptured "" 0 None, w) in
  ∃ urls res,
    main.installPrereq_returns GetPrerequisites Capture capture elements
      [[golint]; [golint]; [cover]] () urls res
    ∧ NoDup urls
    ∧ "github.com/golang/lint/golint" ∈ urls
    ∧ "golang.org/x/tools/cmd/cover" ∉ urls.
Proof.
intros golint cover GetPrerequisites Capture capture.
destruct (installPrereq_with_room GetPrerequisites Capture capture elements
            (λ _, reflexivity _) [[golint]; [golint]; [cover]] ())
  as ((urls & res & Hres) & _ & Hall).
{ vm_compute. lia. }
exists urls, res. split; [exact Hres|].
destruct (Hall urls res Hres) as (_ & Hnd & Hin). split; [exact Hnd|]. split.
- apply Hin. exists golint. split; [vm_compute; left|]. split; [done|by vm_compute].
- intros (p & Hp & Hurl & Hne)%Hin. revert Hurl Hne. vm_compute in Hp.
  repeat (apply elem_of_cons in Hp as [->|Hp]); try (by apply elem_of_nil in Hp);
    vm_compute; intros Hurl Hne; first [discriminate Hurl|by apply Hne].
Defined.

(** ** More on [Config.EnabledChecks] *)
Section EnabledChecks_more.
Import checks.
Context {check : Type}.
Implicit Types (c : Config check) (modes : list Mode).

Lemma foldl_max_from (l : list Z) (a : Z) :
  0 ≤ a → foldl Z.max a l = Z.max a (foldl Z.max 0 l).
Proof.
revert a. induction l as [|x l IH]; intros a Ha; simpl; [lia|].
rewrite (IH (Z.max a x)), (IH (Z.max 0 x)) by lia. lia.
Qed.

Lemma foldl_max_Permutation (l l' : list Z) (a : Z) :
  l ≡ₚ l' → foldl Z.max a l = foldl Z.max a l'.
Proof.
intros Hp. revert a. induction Hp as [|x l l' _ IH|x y l|l l' l'' _ IH1 _ IH2]; intros a; simpl.
- done.
- apply IH.
- f_equal. lia.
- by rewrite IH1.
Qed.

Lemma elem_of_concat (ls : list (list check)) (x : check) :
  x ∈ concat ls ↔ ∃ l, l ∈ ls ∧ x ∈ l.
Proof.
induction ls as [|l ls IH]; simpl.
- split; [by intros ?%elem_of_nil|by intros (l & ?%elem_of_nil & _)].
- rewrite elem_of_app, IH. split.
  + intros [Hx|(l' & Hl' & Hx)]; [exists l; split; [left|done]|exists l'; split; [by right|done]].
  + intros (l' & [->|Hl']%elem_of_cons & Hx); [by left|right; by exists l'].
Qed.

Lemma declared_elem c mode (x : check) :
  x ∈ declared c mode ↔
  ∃ name l, settings_Checks (Modes_at c mode) !! name = Some l ∧ x ∈ l.
Proof.
unfold declared. rewrite elem_of_concat. split.
- intros (l & ([name l'] & -> & Hin)%list_elem_of_fmap & Hx).
  exists name, l'. split; [by apply elem_of_map_to_list|done].
- intros (name & l & Hl & Hx). exists l. split; [|done].
  apply list_elem_of_fmap. exists (name, l). split; [done|by apply elem_of_map_to_list].
Qed.

(** The max-duration does not depend on the order in which [range] visits
    the [Checks] maps, and neither does the collection of checks returned:
    two runs of [EnabledChecks] on one configuration and one request return
    the same budget and the same checks, at most in another order. *)
Theorem EnabledChecks_range_independent
    (order order' : nat → gmap string (list check) → list (string * list check)) c modes :
  (∀ i m, order i m ≡ₚ map_to_list m) →
  (∀ i m, order' i m ≡ₚ map_to_list m) →
  (EnabledChecks order c modes).2 = (EnabledChecks order' c modes).2
  ∧ (EnabledChecks order c modes).1 ≡ₚ (EnabledChecks order' c modes).1.
Proof.
intros Ho Ho'. split.
- by rewrite !EnabledChecks_spec.
- by rewrite (EnabledChecks_declared order Ho), (EnabledChecks_declared order' Ho').
Qed.

Section ranged.
Context (range_order : nat → gmap string (list check) → list (string * list check)).
Hypothesis range_order_perm : ∀ i m, range_order i m ≡ₚ map_to_list m.

Local Abbreviation EnabledChecks := (EnabledChecks range_order).

(** A check is returned exactly when it stands in one of the lists of the
    [Checks] map of a requested mode. *)
Theorem EnabledChecks_elem c modes (x : check) :
  x ∈ (EnabledChecks c modes).1 ↔
  ∃ mode name l, mode ∈ modes
    ∧ settings_Checks (Modes_at c mode) !! name = Some l ∧ x ∈ l.
Proof.
rewrite (EnabledChecks_declared _ range_order_perm), list_elem_of_bind. split.
- intros (mode & (name & l & Hl & Hx)%declared_elem & Hmode). by exists mode, name, l.
- intros (mode & name & l & Hmode & Hl & Hx). exists mode. split; [|done].
  apply declared_elem. by exists name, l.
Qed.

(** Requesting two lists of modes at once yields the checks of both
    requests and the greater of the two budgets. *)
Theorem EnabledChecks_app c modes modes' :
  (EnabledChecks c (modes ++ modes')).1
    ≡ₚ (EnabledChecks c modes).1 ++ (EnabledChecks c modes').1
  ∧ (EnabledChecks c (modes ++ modes')).2
    = Z.max (EnabledChecks c modes).2 (EnabledChecks c modes').2.
Proof.
split.
- rewrite !(EnabledChecks_declared _ range_order_perm). by rewrite bind_app.
- rewrite !EnabledChecks_spec. simpl. unfold budgets. rewrite fmap_app, foldl_app.
  apply foldl_max_from.
  by destruct (foldl_max_bounds ((λ mode, MaxDuration (Modes_at c mode)) <$> modes) 0)
    as (Hle & _ & _).
Qed.

(** The order in which the modes are requested decides the order of the
    checks only: the same modes in another order give the same checks, in
    another order, and the same budget. *)
Theorem EnabledChecks_modes_Permutation c modes modes' :
  modes ≡ₚ modes' →
  (EnabledChecks c modes).1 ≡ₚ (EnabledChecks c modes').1
  ∧ (EnabledChecks c modes).2 = (EnabledChecks c modes').2.
Proof.
intros Hp. split.
- rewrite !(EnabledChecks_declared _ range_order_perm). by rewrite Hp.
- rewrite !EnabledChecks_spec. simpl. apply foldl_max_Permutation.
  unfold budgets. by rewrite Hp.
Qed.
End ranged.
End EnabledChecks_more.

Lemma EnabledChecks_range_independent_witness :
  (checks.EnabledChecks (λ _ m, map_to_list m) (checks.New "v")
     [checks.PreCommit; checks.Lint]).1
  ≡ₚ (checks.EnabledChecks (λ _ m, reverse (map_to_list m)) (checks.New "v")
        [checks.PreCommit; checks.Lint]).1.
Proof.
apply (EnabledChecks_range_independent (λ _ m, map_to_list m) (λ _ m, reverse (map_to_list m))).
- intros i m. reflexivity.
- intros i m. apply reverse_Permutation.
Defined.

Lemma EnabledChecks_elem_witness :
  checks.gofmt ∈ (checks.EnabledChecks (λ _ m, map_to_list m) (checks.New "v")
                    [checks.Lint; checks.PreCommit]).1.
Proof.
apply (EnabledChecks_elem (λ _ m, map_to_list m) (λ _ _, reflexivity _)).
exists checks.PreCommit, "gofmt", [checks.gofmt].
split; [compute_done|]. split; [by vm_compute|left].
Defined.

Lemma EnabledChecks_app_witness :
  (checks.EnabledChecks (λ _ m, map_to_list m) (checks.New "v")
     ([checks.PreCommit] ++ [checks.PrePush; checks.Lint])).2
  = Z.max 5 15.
Proof.
destruct (EnabledChecks_app (λ _ m, map_to_list m) (λ _ _, reflexivity _) (checks.New "v")
            [checks.PreCommit] [checks.PrePush; checks.Lint]) as [_ Hmax].
rewrite Hmax. by vm_compute.
Defined.

Lemma EnabledChecks_modes_Permutation_witness :
  (checks.EnabledChecks (λ _ m, map_to_list m) (checks.New "v")
     [checks.PreCommit; checks.PrePush]).1
  ≡ₚ (checks.EnabledChecks (λ _ m, map_to_list m) (checks.New "v")
        [checks.PrePush; checks.PreCommit]).1.
Proof.
apply (EnabledChecks_modes_Permutation (λ _ m, map_to_list m) (λ _ _, reflexivity _)).
apply perm_swap.
Defined.

(** ** More on [Mode.UnmarshalYAML] *)

(** A receiver that holds one of the four modes holds one of them afterwards,
    whatever is decoded; whenever an error is returned the receiver is left
    as it was, and an error of the callback is returned as it is. *)
Theorem Mode_UnmarshalYAML_keeps_mode (m : checks.Mode) (unmarshal : decoded string) :
  (m ∈ checks.AllModes → (checks.Mode_UnmarshalYAML m unmarshal).1 ∈ checks.AllModes)
  ∧ ((checks.Mode_UnmarshalYAML m unmarshal).2 = None →
       (checks.Mode_UnmarshalYAML m unmarshal).1 ∈ checks.AllModes)
  ∧ ((checks.Mode_UnmarshalYAML m unmarshal).2 ≠ None →
       (checks.Mode_UnmarshalYAML m unmarshal).1 = m)
  ∧ (∀ e, unmarshal = DecodeError e → checks.Mode_UnmarshalYAML m unmarshal = (m, Some e)).
Proof.
unfold checks.Mode_UnmarshalYAML. destruct unmarshal as [s|e].
- rewrite Mode_find_spec. destruct (decide (s ∈ checks.AllModes)) as [Hin|Hout].
  + rewrite decide_True by done. simpl. repeat split; try done.
  + rewrite decide_False by done. simpl. repeat split; try done.
- simpl. repeat split; try done. by intros e' [= ->].
Qed.

Lemma Mode_UnmarshalYAML_keeps_mode_witness :
  (checks.Mode_UnmarshalYAML "lint" (Decoded "nightly")).1 ∈ checks.AllModes.
Proof.
destruct (Mode_UnmarshalYAML_keeps_mode "lint" (Decoded "nightly")) as (Hkeep & _).
apply Hkeep. compute_done.
Defined.

(** ** More on [Checks.UnmarshalYAML] *)
Section unmarshal_more.
Import checks.
Context {check raw bytes : Type}.
Context (KnownChecks : gmap string (unit → check)).
Context (yaml_Marshal : raw → decoded bytes).
Context (yaml_Unmarshal : bytes → check → decoded check).
Context (range_order : nat → gmap string (list raw) → list (string * list raw)).
Implicit Types (st : decoder check) (blocks : list raw) (entries : list (string * list raw)).

Local Abbreviation decode_blocks := (decode_blocks yaml_Marshal yaml_Unmarshal).
Local Abbreviation decode_entries := (decode_entries KnownChecks yaml_Marshal yaml_Unmarshal).
Local Abbreviation decode_block := (decode_block yaml_Marshal yaml_Unmarshal).
Local Abbreviation decode_all := (decode_all yaml_Marshal yaml_Unmarshal).
Local Abbreviation decoded_checks := (decoded_checks KnownChecks yaml_Marshal yaml_Unmarshal).
Local Abbreviation Checks_UnmarshalYAML :=
  (Checks_UnmarshalYAML KnownChecks yaml_Marshal yaml_Unmarshal range_order).

Lemma decode_all_Some f blocks :
  is_Some (decode_all f blocks) ↔
  ∀ block, block ∈ blocks → ∃ chk, decode_block f block = Decoded chk.
Proof.
induction blocks as [|block blocks IH]; simpl.
- split; [by intros _ b ?%elem_of_nil|by eexists].
- destruct (decode_block f block) as [chk|e] eqn:Hb.
  + rewrite fmap_is_Some, IH. split.
    * intros Hall b [->|Hin]%elem_of_cons; [by exists chk|by apply Hall].
    * intros Hall b Hin. apply Hall. by right.
  + split; [intros [? Hx]; discriminate Hx|]. intros Hall. destruct (Hall block) as [chk Hchk]; [left|].
    congruence.
Qed.

(** The inner loop, when it succeeds: the instances of all blocks are
    appended under the type name; without blocks nothing is stored. *)
Lemma decode_blocks_exact name f blocks st st' :
  decode_blocks name f blocks st = (st', None) →
  ∃ made, decode_all f blocks = Some made
    ∧ dec_checks st' =
        match blocks with
        | [] => dec_checks st
        | _ => <[name := default [] (dec_checks st !! name) ++ made]> (dec_checks st)
        end.
Proof.
revert st. induction blocks as [|block blocks IH]; intros st; simpl.
- intros [= <-]. by exists [].
- unfold checks.decode_block.
  destruct (yaml_Marshal block) as [b|e'] eqn:Hm; [|done].
  destruct (yaml_Unmarshal b (f ())) as [chk|e'] eqn:Hu; [|done].
  intros (made & Hmade & Hmap)%IH. simpl in Hmap.
  exists (chk :: made). split; [by rewrite Hmade|].
  rewrite Hmap. destruct blocks as [|block' blocks].
  + simpl in Hmade. by injection Hmade as <-.
  + rewrite lookup_insert_eq, insert_insert_eq. simpl. by rewrite <- (assoc_L (++)).
Qed.

(** Whatever the inner loop ends in, it binds no other type name than its
    own, and never binds a name to an empty list. *)
Lemma decode_blocks_keeps name f blocks st :
  (∀ k l, dec_checks st !! k = Some l → l ≠ []) →
  let st' := (decode_blocks name f blocks st).1 in
  (∀ k l, dec_checks st' !! k = Some l → l ≠ [])
  ∧ (∀ k, is_Some (dec_checks st' !! k) → is_Some (dec_checks st !! k) ∨ k = name).
Proof.
revert st. induction blocks as [|block blocks IH]; intros st Hne; simpl.
- split; [done|]. intros k Hk. by left.
- destruct (yaml_Marshal block) as [b|e']; simpl; [|split; [done|by left]].
  destruct (yaml_Unmarshal b (f ())) as [chk|e']; simpl; [|split; [done|by left]].
  set (st1 := {| dec_checks := <[name := default [] (dec_checks st !! name) ++ [chk]]> (dec_checks st);
                 dec_made := dec_made st ++ [name] |}).
  destruct (IH st1) as [Hne' Hdom].
  { intros k l. simpl. destruct (decide (k = name)) as [->|Hk].
    - rewrite lookup_insert_eq. intros [= <-]. by destruct (default [] (dec_checks st !! name)).
    - rewrite lookup_insert_ne by done. apply Hne. }
  split; [done|]. intros k Hk. destruct (Hdom k Hk) as [Hin| ->]; [|by right].
  simpl in Hin. destruct (decide (k = name)) as [->|Hne1]; [by right|].
  rewrite lookup_insert_ne in Hin by done. by left.
Qed.

Lemma decode_entries_keeps entries st :
  (∀ k l, dec_checks st !! k = Some l → l ≠ []) →
  let st' := (decode_entries entries st).1 in
  (∀ k l, dec_checks st' !! k = Some l → l ≠ [])
  ∧ (∀ k, is_Some (dec_checks st' !! k) →
       is_Some (dec_checks st !! k) ∨ (k ∈ entries.*1 ∧ is_Some (KnownChecks !! k))).
Proof.
revert st. induction entries as [|[name blocks] entries IH]; intros st Hne; simpl.
- split; [done|]. intros k Hk. by left.
- destruct (KnownChecks !! name) as [f|] eqn:Hf; simpl; [|split; [done|by left]].
  destruct (decode_blocks_keeps name f blocks st Hne) as [Hne1 Hdom1].
  destruct (decode_blocks name f blocks st) as [st1 [e1|]] eqn:Hb; simpl in *.
  + split; [done|]. intros k Hk. destruct (Hdom1 k Hk) as [?| ->]; [by left|right].
    split; [left|by rewrite Hf].
  + destruct (IH st1 Hne1) as [Hne2 Hdom2]. split; [done|].
    intros k Hk. destruct (Hdom2 k Hk) as [Hk1|[Hin Hreg]].
    * destruct (Hdom1 k Hk1) as [?| ->]; [by left|right]. split; [left|by rewrite Hf].
    * right. split; [by right|done].
Qed.

Lemma decode_entries_exact entries st st' :
  decode_entries entries st = (st', None) →
  NoDup (entries.*1) →
  (∀ name, name ∈ entries.*1 → dec_checks st !! name = None) →
  (∀ name blocks, (name, blocks) ∈ entries →
     dec_checks st' !! name =
       match blocks with
       | [] => None
       | _ => KnownChecks !! name ≫= λ f, decode_all f blocks
       end)
  ∧ (∀ k, k ∉ entries.*1 → dec_checks st' !! k = dec_checks st !! k).
Proof.
revert st. induction entries as [|[name blocks] entries IH]; intros st; simpl.
- intros [= <-] _ _. split; [|done]. intros name blocks Hin. by apply elem_of_nil in Hin.
- destruct (KnownChecks !! name) as [f|] eqn:Hf; [|done].
  destruct (decode_blocks name f blocks st) as [st1 [e1|]] eqn:Hb; [done|].
  intros Hrest [Hfresh Hnodup]%NoDup_cons Hnew.
  apply decode_blocks_exact in Hb as (made & Hmade & Hmap).
  assert (∀ k, k ≠ name → dec_checks st1 !! k = dec_checks st !! k) as Hother.
  { intros k Hk. rewrite Hmap. destruct blocks; [done|by rewrite lookup_insert_ne]. }
  destruct (IH st1 Hrest Hnodup) as (Hent & Hkeep).
  { intros k Hk. rewrite Hother; [apply Hnew; by right|]. by intros ->. }
  split.
  + intros name' blocks' [[= -> ->]|Hin]%elem_of_cons; [|by apply Hent].
    rewrite (Hkeep name Hfresh), Hmap, Hf. simpl. destruct blocks as [|block blocks].
    * apply Hnew. left.
    * rewrite lookup_insert_eq, (Hnew name) by left. by rewrite Hmade.
  + intros k [Hk1 Hk2]%not_elem_of_cons. rewrite (Hkeep k Hk2). by apply Hother.
Qed.

Lemma decode_all_error f blocks block e :
  block ∈ blocks → decode_block f block = DecodeError e → decode_all f blocks = None.
Proof.
intros Hin Hb. destruct (decode_all f blocks) as [made|] eqn:Hall; [|done].
destruct (proj1 (decode_all_Some f blocks) (mk_is_Some _ _ Hall) block Hin) as [chk Hchk].
congruence.
Qed.

Section ranged.
Hypothesis range_order_perm : ∀ i m, range_order i m ≡ₚ map_to_list m.

(** Decoding succeeds exactly when every type name of the block is
    registered and every block under it decodes. *)
Theorem Checks_UnmarshalYAML_succeeds_iff (c : gmap string (list check))
    (encoded : gmap string (list raw)) :
  (Checks_UnmarshalYAML c (Decoded encoded)).2 = None ↔
  ∀ name blocks, encoded !! name = Some blocks →
    ∃ f, KnownChecks !! name = Some f ∧ is_Some (decode_all f blocks).
Proof.
unfold checks.Checks_UnmarshalYAML.
set (st0 := {| dec_checks := ∅; dec_made := [] |}).
destruct (decode_entries (range_order 0%nat encoded) st0) as [st' err] eqn:Hd. simpl.
split.
- intros ->. intros name blocks Hl.
  destruct (decode_entries_success _ _ _ _ _ _ Hd) as (Hent & _).
  { apply (ranged_NoDup _ range_order_perm). }
  { intros k _. apply lookup_empty. }
  destruct (Hent name blocks) as (f & made & Hf & Hmade & _).
  { by apply (ranged_entry _ range_order_perm). }
  exists f. split; [done|]. apply decode_all_Some. intros block Hin.
  apply list_elem_of_lookup in Hin as [i Hi].
  destruct (Forall2_lookup_l _ _ _ _ _ Hmade Hi) as (chk & _ & Hchk). by exists chk.
- intros Hall. destruct err as [e|]; [exfalso|done].
  apply decode_entries_error in Hd as (name & blocks & Hin & Hcase).
  apply (ranged_entry _ range_order_perm) in Hin.
  destruct (Hall name blocks Hin) as (f & Hf & Hsome).
  destruct Hcase as [[Hnone _]|(f' & block & Hf' & Hb & Herr)]; [congruence|].
  assert (f' = f) as -> by congruence.
  rewrite (decode_all_error f blocks block e Hb Herr) in Hsome. by destruct Hsome.
Qed.

(** When decoding succeeds, the checks stored are fixed by the block and the
    registry alone, whatever the previous contents of the receiver and the
    order of [range]: each type name with blocks is bound to the instances
    of its blocks, in their order, and a type name with an empty list is
    not bound at all. *)
Theorem Checks_UnmarshalYAML_stores (c : gmap string (list check))
    (encoded : gmap string (list raw)) :
  (Checks_UnmarshalYAML c (Decoded encoded)).2 = None →
  dec_checks (Checks_UnmarshalYAML c (Decoded encoded)).1 = decoded_checks encoded.
Proof.
unfold checks.Checks_UnmarshalYAML.
set (st0 := {| dec_checks := ∅; dec_made := [] |}).
destruct (decode_entries (range_order 0%nat encoded) st0) as [st' err] eqn:Hd. simpl.
intros ->. destruct (decode_entries_exact _ _ _ Hd) as (Hent & Hkeep).
{ apply (ranged_NoDup _ range_order_perm). }
{ intros k _. apply lookup_empty. }
apply map_eq. intros k. unfold checks.decoded_checks. rewrite map_lookup_imap.
destruct (encoded !! k) as [blocks|] eqn:Hk; simpl.
- apply Hent. by apply (ranged_entry _ range_order_perm).
- rewrite Hkeep; [apply lookup_empty|].
  intros ([k' blocks] & -> & Hin)%list_elem_of_fmap.
  apply (ranged_entry _ range_order_perm) in Hin. simpl in Hk. congruence.
Qed.

(** Once the callback has decoded the block, whether the loop then
    succeeds or stops at an error, the receiver never holds a type name
    that is not both in the block and in the registry, and never holds a
    type name without checks.  When the callback itself returns an error,
    that error is returned, no factory is called, and the receiver keeps
    what it held before. *)
Theorem Checks_UnmarshalYAML_never_stores (c : gmap string (list check))
    (encoded : gmap string (list raw)) :
  let res := dec_checks (Checks_UnmarshalYAML c (Decoded encoded)).1 in
  dom res ⊆ dom encoded ∩ dom KnownChecks
  ∧ (∀ name l, res !! name = Some l → l ≠ [])
  ∧ (∀ e, let failed := Checks_UnmarshalYAML c (DecodeError e) in
          dec_checks failed.1 = c ∧ dec_made failed.1 = [] ∧ failed.2 = Some e).
Proof.
intros res. unfold res, checks.Checks_UnmarshalYAML. clear res.
set (st0 := {| dec_checks := ∅; dec_made := [] |}).
destruct (decode_entries_keeps (range_order 0%nat encoded) st0) as [Hne Hdom].
{ intros k l. simpl. by rewrite lookup_empty. }
split; [|split; [exact Hne|done]].
intros k Hk%elem_of_dom. destruct (Hdom k Hk) as [Hin|[Hin Hreg]].
- simpl in Hin. rewrite lookup_empty in Hin. by destruct Hin.
- apply elem_of_intersection. split; [|by apply elem_of_dom].
  apply list_elem_of_fmap in Hin as ([k' blocks] & -> & Hin).
  apply (ranged_entry _ range_order_perm) in Hin. apply elem_of_dom. by eexists.
Qed.
End ranged.
End unmarshal_more.

Lemma Checks_UnmarshalYAML_succeeds_iff_witness :
  let KnownChecks : gmap string (unit → checks.Check) :=
    {[ "gofmt" := λ _, checks.gofmt; "test" := λ _, checks.test [] ]} in
  let yaml_Marshal := λ block : list string, Decoded block in
  let yaml_Unmarshal := λ (args : list string) (chk : checks.Check),
    match chk with
    | checks.test _ => Decoded (checks.test args)
    | _ => match args with [] => Decoded chk | _ => DecodeError "yaml: unknown field" end
    end in
  let encoded : gmap string (list (list string)) :=
    {[ "gofmt" := [[]]; "test" := [["-short"]; ["-race"]] ]} in
  (checks.Checks_UnmarshalYAML KnownChecks yaml_Marshal yaml_Unmarshal
     (λ _ m, reverse (map_to_list m)) ∅ (Decoded encoded)).2 = None.
Proof.
intros KnownChecks yaml_Marshal yaml_Unmarshal encoded.
apply (Checks_UnmarshalYAML_succeeds_iff KnownChecks yaml_Marshal yaml_Unmarshal
         (λ _ m, reverse (map_to_list m)) (λ _ m, reverse_Permutation _) ∅ encoded).
intros name blocks Hl. unfold encoded in Hl.
apply lookup_insert_Some in Hl as [[<- <-]|[_ Hl]].
- exists (λ _, checks.gofmt). split; [by vm_compute|vm_compute; by eexists].
- apply lookup_singleton_Some in Hl as [<- <-].
  exists (λ _, checks.test []). split; [by vm_compute|vm_compute; by eexists].
Defined.

Lemma Checks_UnmarshalYAML_stores_witness :
  let KnownChecks : gmap string (unit → checks.Check) :=
    {[ "gofmt" := λ _, checks.gofmt; "test" := λ _, checks.test [] ]} in
  let yaml_Marshal := λ block : list string, Decoded block in
  let yaml_Unmarshal := λ (args : list string) (chk : checks.Check),
    match chk with
    | checks.test _ => Decoded (checks.test args)
    | _ => match args with [] => Decoded chk | _ => DecodeError "yaml: unknown field" end
    end in
  let encoded : gmap string (list (list string)) :=
    {[ "gofmt" := []; "test" := [["-short"]; ["-race"]] ]} in
  let res := checks.dec_checks
    (checks.Checks_UnmarshalYAML KnownChecks yaml_Marshal yaml_Unmarshal
       (λ _ m, map_to_list m) {[ "build" := [checks.build []] ]} (Decoded encoded)).1 in
  res !! "test" = Some [checks.test ["-short"]; checks.test ["-race"]]
  ∧ res !! "gofmt" = None
  ∧ res !! "build" = None.
Proof.
intros KnownChecks yaml_Marshal yaml_Unmarshal encoded res. unfold res.
rewrite (Checks_UnmarshalYAML_stores KnownChecks yaml_Marshal yaml_Unmarshal
           (λ _ m, map_to_list m) (λ _ _, reflexivity _)); [|by vm_compute].
split; [|split]; by vm_compute.
Defined.

(** [Checks.UnmarshalYAML] on a block with an unregistered type name, decoded into an empty
    receiver: the name is not stored.  On a receiver that binds an
    unregistered name to no check, with a callback that fails: the receiver
    is what it was. *)
Lemma Checks_UnmarshalYAML_never_stores_witness :
  let KnownChecks : gmap string (unit → checks.Check) :=
    {[ "gofmt" := λ _, checks.gofmt; "test" := λ _, checks.test [] ]} in
  let yaml_Marshal := λ block : list string, Decoded block in
  let yaml_Unmarshal := λ (args : list string) (chk : checks.Check),
    match chk with
    | checks.test _ => Decoded (checks.test args)
    | _ => match args with [] => Decoded chk | _ => DecodeError "yaml: unknown field" end
    end in
  let encoded : gmap string (list (list string)) :=
    {[ "gofmt" := [[]]; "golintt" := [[]] ]} in
  let before : gmap string (list checks.Check) := {[ "golintt" := [] ]} in
  let kept := checks.dec_checks
    (checks.Checks_UnmarshalYAML KnownChecks yaml_Marshal yaml_Unmarshal
       (λ _ m, map_to_list m) before (DecodeError "yaml: line 3")).1 in
  ("golintt" ∉ dom (checks.dec_checks
     (checks.Checks_UnmarshalYAML KnownChecks yaml_Marshal yaml_Unmarshal
        (λ _ m, map_to_list m) ∅ (Decoded encoded)).1))
  ∧ kept !! "golintt" = Some [].
Proof.
intros KnownChecks yaml_Marshal yaml_Unmarshal encoded before kept. unfold kept. split.
- intros Hin.
  destruct (Checks_UnmarshalYAML_never_stores KnownChecks yaml_Marshal yaml_Unmarshal
              (λ _ m, map_to_list m) (λ _ _, reflexivity _) ∅ encoded) as [Hdom _].
  apply Hdom, elem_of_intersection in Hin as [_ Hreg]. revert Hreg. compute_done.
- destruct (Checks_UnmarshalYAML_never_stores KnownChecks yaml_Marshal yaml_Unmarshal
              (λ _ m, map_to_list m) (λ _ _, reflexivity _) before encoded) as (_ & _ & Hfail).
  destruct (Hfail "yaml: line 3") as (-> & _). by vm_compute.
Defined.

(** ** More on [installPrereq] *)
Section installPrereq_more.
Import definitions gochan main.
Context {check : Type} (GetPrerequisites : check → list CheckPrerequisite).
Context (Capture : string → list string → list string → captured).
Context {world : Type} (capture : world → list string → captured * world).
Implicit Types (enabledChecks : list check) (w : world) (buf urls : list string).

Local Abbreviation probes := (probes GetPrerequisites Capture).
Local Abbreviation missing := (missing GetPrerequisites Capture).
Local Abbreviation installPrereq_deadlocks := (installPrereq_deadlocks GetPrerequisites Capture).

Lemma drain_urls_Permutation buf buf' : buf ≡ₚ buf' → drain_urls buf = drain_urls buf'.
Proof.
intros Hp. apply set_eq. intros url. by rewrite !drain_urls_elem, Hp.
Qed.

Lemma sorted_urls_order (range_keys range_keys' : gset string → list string) m :
  (∀ m, range_keys m ≡ₚ elements m) → (∀ m, range_keys' m ≡ₚ elements m) →
  sorted_urls range_keys m = sorted_urls range_keys' m.
Proof.
intros Hk Hk'. apply (Sorted_unique String.le).
- apply Sorted_merge_sort. apply _.
- apply Sorted_merge_sort. apply _.
- by rewrite (sorted_urls_perm _ Hk), (sorted_urls_perm _ Hk').
Qed.

Lemma missing_length enabledChecks :
  (length (missing enabledChecks) ≤ length (enabledChecks ≫= GetPrerequisites))%nat.
Proof. unfold main.missing. apply length_filter. Qed.

(** The list of locators that [installPrereq] reports and what the
    installation comes to do not depend on how the probing goroutines are
    interleaved, nor on the order in which [range] visits the map of missing
    locators: any two calls that return agree. *)
Theorem installPrereq_returns_unique
    (range_keys range_keys' : gset string → list string) enabledChecks w urls urls' res res' :
  (∀ m, range_keys m ≡ₚ elements m) →
  (∀ m, range_keys' m ≡ₚ elements m) →
  installPrereq_returns GetPrerequisites Capture capture range_keys enabledChecks w urls res →
  installPrereq_returns GetPrerequisites Capture capture range_keys' enabledChecks w urls' res' →
  urls = urls' ∧ res = res'.
Proof.
intros Hk Hk' (st & Hr & Hw & -> & ->) (st' & Hr' & Hw' & -> & ->).
assert (drain_urls (chan st) = drain_urls (chan st')) as Hset.
{ apply drain_urls_Permutation.
  by rewrite (joined_received _ _ _ Hr Hw), (joined_received _ _ _ Hr' Hw'). }
unfold install_missing. rewrite Hset.
by rewrite (sorted_urls_order range_keys range_keys' _ Hk Hk').
Qed.

Section ranged.
Context (range_keys : gset string → list string).
Hypothesis range_keys_perm : ∀ m, range_keys m ≡ₚ elements m.

Local Abbreviation installPrereq_returns :=
  (installPrereq_returns GetPrerequisites Capture capture range_keys).

(** When every probe of every declared prerequisite exits with the expected
    code, [installPrereq] returns [nil] under every interleaving, reports
    nothing, runs no command and leaves the machine as it is; this includes
    the case of no enabled check at all. *)
Theorem installPrereq_all_present enabledChecks w :
  (∀ p, p ∈ enabledChecks ≫= GetPrerequisites →
     cap_exitCode (Capture "" [] (HelpCommand p)) = ExpectedExitCode p) →
  (∃ urls res, installPrereq_returns enabledChecks w urls res)
  ∧ ¬ installPrereq_deadlocks enabledChecks
  ∧ ∀ urls res, installPrereq_returns enabledChecks w urls res →
      urls = [] ∧ res = mkInstalled None w [].
Proof.
intros Hall.
assert (missing enabledChecks = []) as Hnone.
{ unfold main.missing. induction (enabledChecks ≫= GetPrerequisites) as [|p ps IH]; [done|].
  rewrite filter_cons, decide_False; [|intros Hne; apply Hne, Hall; left].
  apply IH. intros p' Hp'. apply Hall. by right. }
assert (length (concat (probes enabledChecks)) ≤ length enabledChecks)%nat as Hroom.
{ rewrite (probes_concat GetPrerequisites Capture), Hnone. simpl. lia. }
split; [|split].
- destruct (room_joins _ _ Hroom) as (st & Hr & Hw). by eexists _, _, st.
- intros (st & Hr & Hs & Hw). by rewrite (room_no_deadlock _ _ _ Hroom Hr Hs) in Hw.
- intros urls res (st & Hr & Hw & -> & ->).
  pose proof (joined_received _ _ _ Hr Hw) as Hp.
  rewrite (probes_concat GetPrerequisites Capture), Hnone in Hp. simpl in Hp.
  apply Permutation_nil_r in Hp. unfold install_missing. rewrite Hp. simpl.
  assert (sorted_urls range_keys (drain_urls []) = []) as ->; [|done].
  apply Permutation_nil_r. unfold drain_urls. simpl.
  by rewrite (sorted_urls_perm _ range_keys_perm), elements_empty.
Qed.
End ranged.

(** When every enabled check declares at most one prerequisite, the channel
    has room for every locator: [installPrereq] gets past [wg.Wait()] under
    every interleaving. *)
Theorem installPrereq_one_prerequisite_each
    (range_keys : gset string → list string) enabledChecks w :
  (∀ c, c ∈ enabledChecks → (length (GetPrerequisites c) ≤ 1)%nat) →
  (∃ urls res,
     installPrereq_returns GetPrerequisites Capture capture range_keys enabledChecks w urls res)
  ∧ ¬ installPrereq_deadlocks enabledChecks.
Proof.
intros Hone.
assert (length (concat (probes enabledChecks)) ≤ length enabledChecks)%nat as Hroom.
{ rewrite (probes_concat GetPrerequisites Capture), length_fmap.
  etrans; [apply missing_length|].
  clear w. induction enabledChecks as [|c cs IH]; [done|].
  rewrite bind_cons, length_app. simpl.
  assert (length (GetPrerequisites c) ≤ 1)%nat by (apply Hone; left).
  assert (length (cs ≫= GetPrerequisites) ≤ length cs)%nat.
  { apply IH. intros c' Hc'. apply Hone. by right. }
  lia. }
split.
- destruct (room_joins _ _ Hroom) as (st & Hr & Hw). by eexists _, _, st.
- intros (st & Hr & Hs & Hw). by rewrite (room_no_deadlock _ _ _ Hroom Hr Hs) in Hw.
Qed.
End installPrereq_more.

(** ** More on [run] *)
Section run_more.
Import gochan main.
Implicit Types (enabledChecks : list check_run) (max wall : Z).

Lemma check_sends_one max c :
  Run c = None ∨ over_budget (Run_took c) max = false →
  (length (check_sends max c) ≤ 1)%nat.
Proof.
unfold check_sends, callRun. intros [->| ->]; simpl.
- destruct (over_budget _ _); simpl; lia.
- destruct (Run c); simpl; lia.
Qed.

(** When no check both fails and exceeds the budget, the channel has room
    for every failure: [run] returns under every interleaving, [nil] exactly
    when every check succeeded within the budget, and the error that carries
    the wall-clock time otherwise; this includes the case of no enabled
    check. *)
Lemma run_one_failure_each enabledChecks max wall :
  (∀ c, c ∈ enabledChecks → Run c = None ∨ over_budget (Run_took c) max = false) →
  (∃ res, run_returns enabledChecks max wall res)
  ∧ ¬ run_deadlocks enabledChecks max
  ∧ ∀ res, run_returns enabledChecks max wall res →
      (res = None ↔
         ∀ c, c ∈ enabledChecks → Run c = None ∧ over_budget (Run_took c) max = false)
      ∧ (res = None ∨ res = Some (ChecksFailed wall)).
Proof.
intros Hone.
assert (length (concat (check_sends max <$> enabledChecks)) ≤ length enabledChecks)%nat as Hroom.
{ induction enabledChecks as [|c cs IH]; [done|].
  rewrite fmap_cons. simpl. rewrite length_app.
  assert (length (check_sends max c) ≤ 1)%nat by (apply check_sends_one, Hone; left).
  assert (length (concat (check_sends max <$> cs)) ≤ length cs)%nat.
  { apply IH. intros c' Hc'. apply Hone. by right. }
  lia. }
split; [|split].
- destruct (room_joins _ _ Hroom) as (st & Hr & Hw).
  by exists (drain_errs (chan st) None wall), st.
- intros (st & Hr & Hs & Hw). by rewrite (room_no_deadlock _ _ _ Hroom Hr Hs) in Hw.
- intros res (st & Hr & Hw & ->).
  pose proof (joined_received _ _ _ Hr Hw) as Hp. rewrite failures_concat in Hp.
  rewrite drain_errs_none, <- failures_nil. destruct (chan st) as [|e buf].
  + apply Permutation_nil_l in Hp. split; [by rewrite <- Hp|by left].
  + split; [|by right]. split; [done|]. intros Hnil. rewrite Hnil in Hp.
    by apply Permutation_nil_r in Hp.
Qed.
(** When the budget in nanoseconds fits into 64 bits, a check sends one
    error when its [Run] fails and one more when its measured time is
    greater than the budget. *)
Lemma failures_length enabledChecks max :
  - 2 ^ 63 ≤ max * Second < 2 ^ 63 →
  length (failures enabledChecks max)
  = (length (filter (λ c, is_Some (Run c)) enabledChecks)
     + length (filter (λ c, (max * Second < Run_took c)%Z) enabledChecks))%nat.
Proof.
intros Hrange. unfold failures.
induction enabledChecks as [|c cs IH]; [done|].
rewrite bind_cons, length_app, IH, !filter_cons.
unfold check_sends, callRun. rewrite over_budget_seconds by done.
destruct (Z.gtb_spec (Run_took c) (max * Second)) as [Hgt|Hle].
- rewrite (decide_True (P := max * Second < Run_took c)) by done.
  destruct (Run c) as [e|].
  + rewrite decide_True by done. simpl. lia.
  + rewrite decide_False by (by intros [? ?]). simpl. lia.
- rewrite (decide_False (P := max * Second < Run_took c)) by lia.
  destruct (Run c) as [e|].
  + rewrite decide_True by done. simpl. lia.
  + rewrite decide_False by (by intros [? ?]). simpl. lia.
Qed.

Lemma within_budget_seconds duration max :
  - 2 ^ 63 ≤ max * Second < 2 ^ 63 →
  over_budget duration max = false ↔ duration ≤ max * Second.
Proof.
intros Hrange. rewrite over_budget_seconds by done.
destruct (Z.gtb_spec duration (max * Second)); split; (done || lia).
Qed.

(** When the budget in nanoseconds fits into 64 bits and the checks
    whose [Run] fails and the checks whose measured time is greater than
    the budget are, counted together, no more than the enabled checks,
    [run] returns under every interleaving and never deadlocks; it returns
    [nil] exactly when every [Run] returned [nil] and no measured time is
    greater than [max] seconds, and the aggregate error with the
    wall-clock time otherwise. *)
Theorem run_returns_with_room enabledChecks max wall :
  - 2 ^ 63 ≤ max * Second < 2 ^ 63 →
  (length (filter (λ c, is_Some (Run c)) enabledChecks)
   + length (filter (λ c, (max * Second < Run_took c)%Z) enabledChecks)
   ≤ length enabledChecks)%nat →
  (∃ res, run_returns enabledChecks max wall res)
  ∧ ¬ run_deadlocks enabledChecks max
  ∧ ∀ res, run_returns enabledChecks max wall res →
      (res = None ↔
         ∀ c, c ∈ enabledChecks → Run c = None ∧ Run_took c ≤ max * Second)
      ∧ (res = None ∨ res = Some (ChecksFailed wall)).
Proof.
intros Hrange Hroom. rewrite <- failures_length in Hroom by done.
destruct (run_with_room enabledChecks max wall Hroom) as (Hex & Hlive & Hall).
split; [done|]. split; [done|]. intros res Hres.
destruct (Hall res Hres) as [Hiff Hfail]. split.
- rewrite Hiff, failures_nil.
  split; intros H c Hc; destruct (H c Hc) as [Hrun Htook];
    (split; [done|]); by apply (within_budget_seconds _ _ Hrange).
- destruct (failures enabledChecks max) as [|e l]; [left; by apply Hiff|right; by apply Hfail].
Qed.

(** When the budget in nanoseconds fits into 64 bits and no check
    both fails and takes more than the budget (also when no check is
    enabled), [run] returns under every interleaving and never deadlocks;
    it returns [nil] exactly when every [Run] returned [nil] and no measured
    time is greater than [max] seconds, and the aggregate error with the
    wall-clock time otherwise. *)
Theorem run_returns_one_failure_each enabledChecks max wall :
  - 2 ^ 63 ≤ max * Second < 2 ^ 63 →
  (∀ c, c ∈ enabledChecks → Run c = None ∨ Run_took c ≤ max * Second) →
  (∃ res, run_returns enabledChecks max wall res)
  ∧ ¬ run_deadlocks enabledChecks max
  ∧ ∀ res, run_returns enabledChecks max wall res →
      (res = None ↔
         ∀ c, c ∈ enabledChecks → Run c = None ∧ Run_took c ≤ max * Second)
      ∧ (res = None ∨ res = Some (ChecksFailed wall)).
Proof.
intros Hrange Hone.
destruct (run_one_failure_each enabledChecks max wall) as (Hex & Hlive & Hall).
{ intros c Hc. destruct (Hone c Hc) as [Hrun|Htook]; [by left|right].
  by apply (within_budget_seconds _ _ Hrange). }
split; [done|]. split; [done|]. intros res Hres.
destruct (Hall res Hres) as [Hiff Hcases]. split; [|done].
rewrite Hiff.
split; intros H c Hc; destruct (H c Hc) as [Hrun Htook];
  (split; [done|]); by apply (within_budget_seconds _ _ Hrange).
Qed.
End run_more.

Lemma installPrereq_returns_unique_witness :
  let golint := definitions.mkCheckPrerequisite ["golint"; "-h"] 2 "github.com/golang/lint/golint" in
  let errcheck := definitions.mkCheckPrerequisite ["errcheck"; "-h"] 2 "github.com/kisielk/errcheck" in
  let Capture := λ (_ : string) (_ _ : list string),
    definitions.mkCaptured "" (-1) (Some "executable file not found") in
  let first := gochan.exec 2 [0; 0; 1; 1]%nat
                 (main.probing (λ c : list definitions.CheckPrerequisite, c) Capture
                    [[golint]; [errcheck]]) in
  let second := gochan.exec 2 [1; 1; 0; 0]%nat
                  (main.probing (λ c : list definitions.CheckPrerequisite, c) Capture
                     [[golint]; [errcheck]]) in
  gochan.chan first ≠ gochan.chan second
  ∧ main.sorted_urls elements (main.drain_urls (gochan.chan first))
    = main.sorted_urls (λ m, reverse (elements m)) (main.drain_urls (gochan.chan second)).
Proof.
intros golint errcheck Capture first second. split; [by vm_compute|].
pose (capture := λ (w : unit) (_ : list string), (definitions.mkCaptured "" 0 None, w)).
apply (installPrereq_returns_unique (λ c : list definitions.CheckPrerequisite, c) Capture capture
         elements (λ m, reverse (elements m)) [[golint]; [errcheck]] () _ _
         (main.install_missing capture elements (gochan.chan first) ())
         (main.install_missing capture (λ m, reverse (elements m)) (gochan.chan second) ())).
- intros m. reflexivity.
- intros m. apply reverse_Permutation.
- exists first. split; [apply exec_reachable|]. split; [by vm_compute|]. by split.
- exists second. split; [apply exec_reachable|]. split; [by vm_compute|]. by split.
Defined.

Lemma installPrereq_all_present_witness :
  let cover := definitions.mkCheckPrerequisite ["go"; "tool"; "cover"; "-h"] 1
                 "golang.org/x/tools/cmd/cover" in
  let Capture := λ (_ : string) (_ _ : list string),
    definitions.mkCaptured "usage: go tool cover" 1 None in
  let capture := λ (w : nat) (_ : list string), (definitions.mkCaptured "" 0 None, S w) in
  ∃ urls res,
    main.installPrereq_returns (λ c : list definitions.CheckPrerequisite, c) Capture capture
      elements [[cover]; []] 0%nat urls res
    ∧ urls = [] ∧ res = main.mkInstalled None 0%nat [].
Proof.
intros cover Capture capture.
destruct (installPrereq_all_present (λ c : list definitions.CheckPrerequisite, c) Capture capture
            elements (λ _, reflexivity _) [[cover]; []] 0%nat)
  as ((urls & res & Hres) & _ & Hall).
{ intros p Hp. vm_compute in Hp.
  apply elem_of_cons in Hp as [-> |Hp]; [by vm_compute|by apply elem_of_nil in Hp]. }
exists urls, res. split; [exact Hres|]. exact (Hall urls res Hres).
Defined.

Lemma installPrereq_one_prerequisite_each_witness :
  let golint := definitions.mkCheckPrerequisite ["golint"; "-h"] 2 "github.com/golang/lint/golint" in
  let errcheck := definitions.mkCheckPrerequisite ["errcheck"; "-h"] 2 "github.com/kisielk/errcheck" in
  let Capture := λ (_ : string) (_ _ : list string),
    definitions.mkCaptured "" (-1) (Some "executable file not found") in
  ¬ main.installPrereq_deadlocks (λ c : list definitions.CheckPrerequisite, c) Capture
      [[golint]; [errcheck]; []].
Proof.
intros golint errcheck Capture.
pose (capture := λ (w : unit) (_ : list string), (definitions.mkCaptured "" 0 None, w)).
destruct (installPrereq_one_prerequisite_each (λ c : list definitions.CheckPrerequisite, c)
            Capture capture elements [[golint]; [errcheck]; []] ()) as [_ Hlive]; [|exact Hlive].
intros c Hc. repeat (apply elem_of_cons in Hc as [-> |Hc]); try (by apply elem_of_nil in Hc);
  simpl; lia.
Defined.

(** [run] on a check that fails at once, one that succeeds after six
    seconds and one that succeeds in time, with a budget of five: no check
    sends two errors, [run] returns, and it returns the aggregate error with
    the wall-clock time. *)
Lemma run_returns_one_failure_each_witness :
  let failing := main.mkCheckRun "build" (Some "exit status 2") 0 in
  let slow := main.mkCheckRun "test" None (6 * main.Second) in
  let fine := main.mkCheckRun "gofmt" None main.Second in
  ∃ res, main.run_returns [failing; slow; fine] 5 (6 * main.Second) res
         ∧ res = Some (main.ChecksFailed (6 * main.Second)).
Proof.
intros failing slow fine.
destruct (run_returns_one_failure_each [failing; slow; fine] 5 (6 * main.Second))
  as ([res Hres] & _ & Hall).
{ by vm_compute. }
{ intros c Hc. repeat (apply elem_of_cons in Hc as [-> |Hc]); try (by apply elem_of_nil in Hc).
  - right. by vm_compute.
  - by left.
  - by left. }
exists res. split; [exact Hres|].
destruct (Hall res Hres) as [Hiff [-> |Hfail]]; [|exact Hfail].
exfalso. destruct (proj1 Hiff eq_refl failing) as [Hrun _]; [left|]. discriminate Hrun.
Defined.

(** [run] on two checks, one that fails at once and one that succeeds after
    six seconds, with a budget of five: two failures for two checks fit into
    the channel, [run] returns, and it returns the aggregate error with the
    wall-clock time. *)
Lemma run_returns_with_room_witness :
  let failing := main.mkCheckRun "build" (Some "exit status 2") 0 in
  let slow := main.mkCheckRun "test" None (6 * main.Second) in
  (∃ res, main.run_returns [failing; slow] 5 (6 * main.Second) res
          ∧ res = Some (main.ChecksFailed (6 * main.Second)))
  ∧ ¬ main.run_deadlocks [failing; slow] 5.
Proof.
intros failing slow.
destruct (run_returns_with_room [failing; slow] 5 (6 * main.Second))
  as ([res Hres] & Hlive & Hall).
{ by vm_compute. }
{ vm_compute. lia. }
split; [|exact Hlive]. exists res. split; [exact Hres|].
destruct (Hall res Hres) as [Hiff [-> |Hfail]]; [|exact Hfail].
exfalso. destruct (proj1 Hiff eq_refl failing) as [Hrun _]; [left|]. discriminate Hrun.
Defined.

(** ** [help]: what is shown about the registered checks *)
Section help_facts.
Import definitions main.
Context {check : Type} (GetPrerequisites : check → list CheckPrerequisite).
Context (range_order : gmap string check → list (string * check)).
Implicit Types (s : help_struct check) (entries : list (string * check)).

Local Abbreviation help_visit := (help_visit GetPrerequisites).
Local Abbreviation help := (help GetPrerequisites range_order).
Local Abbreviation native c := (length (GetPrerequisites c) = 0%nat).

(** One visit, field by field. *)
Lemma help_visit_fields s name c :
  Usage (help_visit s (name, c)) = Usage s
  ∧ Max (help_visit s (name, c)) = Z.max (Max s) (Z.of_nat (String.length name))
  ∧ NativeChecks (help_visit s (name, c))
    = NativeChecks s ++ (if decide (native c) then [c] else [])
  ∧ OtherChecks (help_visit s (name, c))
    = OtherChecks s ++ (if decide (native c) then [] else [c]).
Proof.
unfold main.help_visit.
destruct (Nat.eqb_spec (length (GetPrerequisites c)) 0) as [Hz|Hnz];
  [rewrite !decide_True by done|rewrite !decide_False by done];
  destruct (Z.gtb_spec (Z.of_nat (String.length name)) (Max s)); simpl;
  rewrite ?(right_id_L [] (++)); repeat split; try done; lia.
Qed.

(** The loop, field by field. *)
Lemma help_loop entries s :
  Usage (foldl help_visit s entries) = Usage s
  ∧ Max (foldl help_visit s entries)
    = foldl Z.max (Max s) ((λ e, Z.of_nat (String.length e.1)) <$> entries)
  ∧ NativeChecks (foldl help_visit s entries)
    = NativeChecks s ++ filter (λ c, native c) (entries.*2)
  ∧ OtherChecks (foldl help_visit s entries)
    = OtherChecks s ++ filter (λ c, ¬ native c) (entries.*2).
Proof.
revert s. induction entries as [|[name c] entries IH]; intros s.
- simpl. by rewrite !filter_nil, !(right_id_L [] (++)).
- change (foldl help_visit s ((name, c) :: entries))
    with (foldl help_visit (help_visit s (name, c)) entries).
  destruct (IH (help_visit s (name, c))) as (Hu & Hm & Hn & Ho).
  destruct (help_visit_fields s name c) as (Hu1 & Hm1 & Hn1 & Ho1).
  rewrite Hu, Hm, Hn, Ho, Hu1, Hm1, Hn1, Ho1. clear.
  rewrite !fmap_cons, !filter_cons. simpl.
  destruct (decide (native c)) as [Hz|Hnz].
  + rewrite decide_False by auto. rewrite (right_id_L [] (++)), <- (assoc_L (++)). done.
  + rewrite decide_True by auto. rewrite (right_id_L [] (++)), <- (assoc_L (++)). done.
Qed.

Section ranged.
Hypothesis range_order_perm : ∀ m, range_order m ≡ₚ map_to_list m.

(** Every registered check is listed once, among the native checks when it
    declares no prerequisite and among the others when it declares one or
    more; nothing else is listed, and the usage text is passed on. *)
Theorem help_lists (KnownChecks : gmap string check) (usage : string) :
  let s := help KnownChecks usage in
  NativeChecks s ++ OtherChecks s ≡ₚ (map_to_list KnownChecks).*2
  ∧ Forall (λ c, GetPrerequisites c = []) (NativeChecks s)
  ∧ Forall (λ c, GetPrerequisites c ≠ []) (OtherChecks s)
  ∧ Usage s = usage.
Proof.
intros s. unfold s, main.help.
destruct (help_loop (range_order KnownChecks) (mkHelpStruct usage 0 [] []))
  as (Hu & _ & Hn & Ho).
rewrite Hn, Ho, Hu. simpl. split; [|split; [|split; [|done]]].
- rewrite filter_app_complement. by rewrite range_order_perm.
- apply Forall_forall. intros c [Hc _]%list_elem_of_filter. by apply nil_length_inv.
- apply Forall_forall. intros c [Hc _]%list_elem_of_filter. intros Hnil. apply Hc.
  by rewrite Hnil.
Qed.

(** The column width [Max] is the length of the longest registered type
    name: no name is longer, some name is that long, and it is 0 for an
    empty registry. *)
Theorem help_Max (KnownChecks : gmap string check) (usage : string) :
  let s := help KnownChecks usage in
  (∀ name, name ∈ dom KnownChecks → Z.of_nat (String.length name) ≤ Max s)
  ∧ (KnownChecks ≠ ∅ →
       ∃ name, name ∈ dom KnownChecks ∧ Z.of_nat (String.length name) = Max s)
  ∧ (KnownChecks = ∅ → Max s = 0).
Proof.
intros s. unfold s, main.help.
destruct (help_loop (range_order KnownChecks) (mkHelpStruct usage 0 [] []))
  as (_ & Hm & _ & _).
rewrite Hm. simpl.
set (lens := (λ e : string * check, Z.of_nat (String.length e.1)) <$> range_order KnownChecks).
assert (∀ b, b ∈ lens ↔ ∃ name, name ∈ dom KnownChecks ∧ b = Z.of_nat (String.length name))
  as Hlens.
{ intros b. unfold lens. rewrite list_elem_of_fmap. split.
  - intros ([name c] & -> & Hin). rewrite range_order_perm in Hin.
    apply elem_of_map_to_list in Hin. exists name. split; [|done].
    apply elem_of_dom. by exists c.
  - intros (name & [c Hc]%elem_of_dom & ->). exists (name, c). split; [done|].
    rewrite range_order_perm. by apply elem_of_map_to_list. }
destruct (foldl_max_bounds lens 0) as (Hle & Hall & Hin).
split; [|split].
- intros name Hname. apply Hall, Hlens. by exists name.
- intros Hne. destruct Hin as [Hz|Hin].
  + apply map_choose in Hne as (name & c & Hc).
    exists name. split; [apply elem_of_dom; by exists c|].
    assert (Z.of_nat (String.length name) ≤ foldl Z.max 0 lens).
    { apply Hall, Hlens. exists name. split; [apply elem_of_dom; by exists c|done]. }
    lia.
  + apply Hlens in Hin as (name & Hname & Heq). by exists name.
- intros ->. unfold lens.
  assert (range_order (∅ : gmap string check) = []) as ->; [|done].
  apply Permutation_nil_r. by rewrite range_order_perm, map_to_list_empty.
Qed.
End ranged.
End help_facts.

(** ** [mainImpl]: the command word *)
Section take_command_facts.
Import main.

Lemma store_at_spec {A : Type} (vals a : list A) (i : nat) :
  (i + length vals ≤ length a)%nat →
  store_at a i vals = take i a ++ vals ++ drop (i + length vals) a.
Proof.
revert a i. induction vals as [|v vals IH]; intros a i Hlen; simpl in *.
- by rewrite Nat.add_0_r, take_drop.
- rewrite IH by (rewrite length_insert; lia).
  rewrite (take_S_r _ _ v) by (apply list_lookup_insert_eq; lia).
  rewrite take_insert_ge by lia. rewrite drop_insert_lt by lia.
  rewrite <- (assoc_L (++)). simpl. rewrite Nat.add_succ_r. done.
Qed.

(** Called with the program name alone, the command is [installrun] and the
    arguments are left as they are; otherwise the command is the first
    argument, and the flag parser finds the program name followed by the
    remaining arguments, in their order; an empty [os.Args] makes the index
    fail. *)
Theorem take_command_spec :
  take_command [] = None
  ∧ (∀ prog, take_command [prog] = Some ("installrun", [prog]))
  ∧ (∀ prog cmd rest, take_command (prog :: cmd :: rest) = Some (cmd, prog :: rest)).
Proof.
split; [done|]. split; [done|]. intros prog cmd rest.
assert (copy_within (prog :: cmd :: rest) 1 2
        = prog :: rest ++ drop (length rest) (cmd :: rest)) as Hcopy.
{ unfold copy_within. change (drop 2 (prog :: cmd :: rest)) with rest.
  rewrite Nat.min_r by (simpl; lia). rewrite take_ge by done.
  rewrite store_at_spec by (simpl; lia). done. }
unfold take_command.
destruct (Nat.eqb_spec (length (prog :: cmd :: rest)) 1) as [Hone|_]; [simpl in Hone; lia|].
change ((prog :: cmd :: rest) !! 1%nat) with (Some cmd). cbv zeta. rewrite Hcopy.
do 2 f_equal. simpl length. rewrite length_app, length_drop. simpl length.
replace (S (length rest + (S (length rest) - length rest)) - 1)%nat
  with (S (length rest)) by lia.
simpl. f_equal. by rewrite take_app_length.
Qed.
End take_command_facts.

Lemma help_lists_witness :
  let golint := definitions.mkCheckPrerequisite ["golint"; "-h"] 2 "github.com/golang/lint/golint" in
  let GetPrerequisites := λ c : checks.Check,
    match c with checks.golint _ => [golint] | _ => [] end in
  let KnownChecks : gmap string checks.Check :=
    {[ "gofmt" := checks.gofmt; "golint" := checks.golint [] ]} in
  let s := main.help GetPrerequisites (λ m, reverse (map_to_list m)) KnownChecks "usage" in
  main.NativeChecks s ++ main.OtherChecks s ≡ₚ [checks.gofmt; checks.golint []].
Proof.
intros golint GetPrerequisites KnownChecks s.
destruct (help_lists GetPrerequisites (λ m, reverse (map_to_list m))
            (λ m, reverse_Permutation _) KnownChecks "usage") as (Hall & _).
fold s in Hall. rewrite Hall. vm_compute. solve_Permutation.
Defined.

Lemma help_Max_witness :
  let GetPrerequisites := λ c : checks.Check, @nil definitions.CheckPrerequisite in
  let KnownChecks : gmap string checks.Check :=
    {[ "gofmt" := checks.gofmt; "golint" := checks.golint [] ]} in
  6 ≤ main.Max (main.help GetPrerequisites (λ m, map_to_list m) KnownChecks "usage").
Proof.
intros GetPrerequisites KnownChecks.
destruct (help_Max GetPrerequisites (λ m, map_to_list m) (λ _, reflexivity _) KnownChecks "usage")
  as (Hfits & _).
apply (Hfits "golint"). compute_done.
Defined.

(** ** [New] and [Mode.UnmarshalYAML] together *)

(** The default configuration has settings for exactly the mode names that
    decode: a name is accepted by [Mode.UnmarshalYAML] if and only if [New]
    configures it. *)
Theorem New_configures_decodable_modes (v : string) (m : checks.Mode) (s : string) :
  (checks.Mode_UnmarshalYAML m (Decoded s)).2 = None
  ↔ is_Some (checks.Modes (checks.New v) !! s).
Proof.
unfold checks.Mode_UnmarshalYAML. rewrite Mode_find_spec.
destruct (decide (s ∈ checks.AllModes)) as [Hin|Hout].
- rewrite decide_True by done. split; [intros _|done]. unfold checks.AllModes in Hin.
  repeat (apply elem_of_cons in Hin as [-> |Hin]); try (by apply elem_of_nil in Hin);
    vm_compute; by eexists.
- rewrite decide_False by done. split; [done|]. intros [x Hx]. exfalso. revert Hx.
  unfold checks.New; simpl.
  rewrite !lookup_insert_ne, lookup_singleton_ne; [done|..];
    intros <-; apply Hout; compute_done.
Qed.
